(** * Expected returns: a verified model of [pypfopt/expected_returns.py]

    The module estimates expected asset returns from price tables
    ([returns_from_prices], [prices_from_returns], [mean_historical_return],
    [ema_historical_return]) and blends a prior with investor views
    ([black_litterman_return]).

    Numbers.  The Python code computes in binary64.  Here a number is an
    element of an exact field [F] (the rationals [rat] in the closed
    examples), so rounding and overflow are not represented.  A value that
    binary64 would make infinite (a division by zero) has no counterpart in
    [F]: a call that produces one ends in the outcome [NonFinite], about
    which nothing further is stated.  NaN, the missing value of pandas, is
    the cell [None].

    Where rounding itself decides what a call does (whether NumPy meets a
    zero pivot, whether a quotient is one tenth), the functions are run on
    binary64 numbers instead, in the module [Binary64].

    Libraries.  numpy and pandas are not part of the repository; each of
    their operations used by the module is given a definition of its own
    below, named after the operation and following its documented
    behaviour on the inputs the module passes. *)

From Corelib Require Import PrimFloat SpecFloat FloatOps FloatAxioms.
From HB Require Import structures.
From mathcomp Require Import boot order algebra.

Set Implicit Arguments.
Unset Strict Implicit.
Unset Printing Implicit Defensive.

Import GRing.Theory Num.Theory Order.Theory.
Local Open Scope ring_scope.

(** ** Outcomes of a call *)

(** The exceptions the module lets escape. *)
Inductive exn : Type :=
  | LinAlgError   (* numpy.linalg: singular matrix *)
  | IndexError    (* positional indexer out of bounds *)
  | ValueError.   (* rejected argument *)

(** A call returns a value, raises, or returns arrays that hold an
    infinity or a NaN born from one (see the header). *)
Inductive outcome (T : Type) : Type :=
  | Value (x : T)
  | Raise (e : exn)
  | NonFinite.

Arguments Raise {T} e.
Arguments NonFinite {T}.

Definition obind {T U} (o : outcome T) (f : T -> outcome U) : outcome U :=
  match o with
  | Value x => f x
  | Raise e => Raise e
  | NonFinite => NonFinite
  end.

Definition omap_outcome {T U} (f : T -> U) (o : outcome T) : outcome U :=
  obind o (fun x => Value (f x)).

(** ** Black-Litterman posterior *)

Module BL.
Section Posterior.

Variable F : fieldType.
Variable L : Type.     (* asset labels *)

(** A [pd.Series] of [n] numbers: labels and values, position by position. *)
Record Series (n : nat) : Type := mkSeries {
  index : n.-tuple L;
  values : 'cV[F]_n
}.

(** The argument [P]: a [k] x [n] array, or [None].  An absent [P] stands
    for [np.eye(n)], so it is typed only where the number of views is the
    number of assets. *)
Inductive view_arg (n : nat) : nat -> Type :=
  | PGiven k (P : 'M[F]_(k, n)) : view_arg n k
  | PNone : view_arg n n.

(** [np.eye(n)] *)
Definition eye (n : nat) : 'M[F]_n := 1%:M.

(** [np.diag] of a square 2-D array: its diagonal, as a 1-D array. *)
Definition diag_of k (M : 'M[F]_k) : 'rV[F]_k := \row_i M i i.

(** [np.diag] of a 1-D array: the diagonal matrix carrying it. *)
Definition diag_from k (d : 'rV[F]_k) : 'M[F]_k := diag_mx d.

(** [1.0 / d], entry by entry.  numpy does not raise on a zero entry, it
    stores an infinity there: [None] records that the array left [F]. *)
Definition reciprocal k (d : 'rV[F]_k) : option 'rV[F]_k :=
  if [forall i, d 0 i != 0] then Some (map_mx GRing.inv d) else None.

(** [np.linalg.inv]: the inverse, [LinAlgError] on a singular matrix. *)
Definition linalg_inv n (M : 'M[F]_n) : outcome 'M[F]_n :=
  if M \in unitmx then Value (invmx M) else Raise LinAlgError.

(** [np.linalg.solve A b]: the solution of [A x = b], [LinAlgError] on a
    singular [A]. *)
Definition linalg_solve n (A : 'M[F]_n) (b : 'cV[F]_n) : outcome 'cV[F]_n :=
  if A \in unitmx then Value (invmx A *m b) else Raise LinAlgError.

(** Line 118-119: [if P is None: P = np.eye(Sigma.shape[0])]. *)
Definition default_P n k (P : view_arg n k) : 'M[F]_(k, n) :=
  match P in view_arg _ k0 return 'M[F]_(k0, n) with
  | PGiven _ P0 => P0
  | PNone => eye n
  end.

(** Line 120-121: [if Omega is None:
    Omega = np.diag(np.diag(tau * P @ Sigma @ P.T))]. *)
Definition default_Omega n k (Omega : option 'M[F]_k) (tau : F)
    (P : 'M[F]_(k, n)) (Sigma : 'M[F]_n) : 'M[F]_k :=
  match Omega with
  | Some Omega0 => Omega0
  | None => diag_from (diag_of (((tau *: P) *m Sigma) *m P^T))
  end.

(** Lines 118-130.  [Q] enters only through [.dot(Q)], which reads its
    values by position; the labels of [Pi] are put on the result. *)
Definition black_litterman_return n k (Pi : Series n) (Sigma : 'M[F]_n)
    (Q : 'cV[F]_k) (Omega : option 'M[F]_k) (P : view_arg n k) (tau : F)
    : outcome (Series n) :=
  let P := default_P P in
  let Omega := default_Omega Omega tau P Sigma in
  let Omega_inv := omap (@diag_from k) (reciprocal (diag_of Omega)) in
  let P_Omega_inv := omap (mulmx P^T) Omega_inv in
  match linalg_inv (tau *: Sigma) with
  | Raise e => Raise e
  | NonFinite => NonFinite
  | Value tau_Sigma_inv =>
      match P_Omega_inv with
      | None => NonFinite
      | Some P_Omega_inv =>
          let A := tau_Sigma_inv + P_Omega_inv *m P in
          let b := tau_Sigma_inv *m values Pi + P_Omega_inv *m Q in
          obind (linalg_solve A b) (fun x => Value (mkSeries (index Pi) x))
      end
  end.

End Posterior.
End BL.

(** ** Price and return tables *)

Module Frame.
Section Tables.

Variable F : fieldType.
Variable T : Type.     (* row labels: dates *)
Variable A : Type.     (* column labels: tickers *)

(** A cell of a return table: a number, or NaN. *)
Definition cell : Type := option F.

(** A [pd.DataFrame] with cells in [C], stored column by column, each
    column under its label and in the order of the columns. *)
Record DataFrame (C : Type) : Type := mkFrame {
  index : seq T;
  columns : seq (A * seq C)
}.

(** A [pd.Series] indexed by the column labels of a frame. *)
Definition Series : Type := seq (A * cell).

(** Every column has one cell per row. *)
Definition well_formed C (df : DataFrame C) : bool :=
  all (fun c => size c.2 == size (index df)) (columns df).

Definition n_rows C (df : DataFrame C) : nat := size (index df).

Definition labels C (df : DataFrame C) : seq A := unzip1 (columns df).

(** The cells of column [j], top to bottom. *)
Definition column C (df : DataFrame C) (j : nat) : seq C :=
  nth [::] (unzip2 (columns df)) j.

(** Apply [f] to every column. *)
Definition map_columns C D (f : seq C -> seq D) (df : DataFrame C)
    : DataFrame D :=
  mkFrame (index df) [seq (c.1, f c.2) | c <- columns df].

(** All outcomes of a list, in order; the first that is not a value wins. *)
Fixpoint traverse U V (f : U -> outcome V) (s : seq U) : outcome (seq V) :=
  match s with
  | [::] => Value [::]
  | x :: s' =>
      obind (f x) (fun y => obind (traverse f s') (fun ys => Value (y :: ys)))
  end.

(** *** [pct_change] *)

(** A table of prices holds numbers: its cells are in [F].  (How
    [pct_change] treats a missing price has changed between releases of
    pandas; such tables are left out.) *)

(** One cell of [data / data.shift(1) - 1].  [0 / 0] is NaN; any other
    division by zero is an infinity. *)
Definition pct_cell (pq : F * F) : outcome cell :=
  let: (prev, cur) := pq in
  if prev == 0 then (if cur == 0 then Value None else NonFinite)
  else Value (Some (cur / prev - 1)).

(** A column of [pct_change()]: NaN in the first row, then the change
    from each row to the next. *)
Definition pct_change_col (xs : seq F) : outcome (seq cell) :=
  match xs with
  | [::] => Value [::]
  | x :: xs' =>
      omap_outcome (cons None) (traverse pct_cell (zip (x :: xs') xs'))
  end.

Definition pct_change (prices : DataFrame F) : outcome (DataFrame cell) :=
  omap_outcome
    (fun cs => mkFrame (index prices) (zip (labels prices) cs))
    (traverse pct_change_col (unzip2 (columns prices))).

(** *** [dropna(how="all")] *)

(** Row [i] holds a number in some column. *)
Definition row_has_value (df : DataFrame cell) (i : nat) : bool :=
  has (fun c => isSome (nth None c.2 i)) (columns df).

Definition dropna_all (df : DataFrame cell) : DataFrame cell :=
  let keep := [seq row_has_value df i | i <- iota 0 (n_rows df)] in
  mkFrame (mask keep (index df))
          [seq (c.1, mask keep c.2) | c <- columns df].

(** Line 35: [prices.pct_change().dropna(how="all")]. *)
Definition returns_from_prices (prices : DataFrame F)
    : outcome (DataFrame cell) :=
  omap_outcome dropna_all (pct_change prices).

(** *** [prices_from_returns] *)

(** [ret.iloc[0] = 1]: the first row is overwritten; a frame without rows
    has no position 0. *)
Definition set_first C (v : C) (xs : seq C) : seq C :=
  match xs with
  | [::] => [::]
  | _ :: xs' => v :: xs'
  end.

Definition iloc0_assign (v : cell) (df : DataFrame cell)
    : outcome (DataFrame cell) :=
  if index df is [::] then Raise IndexError
  else Value (map_columns (set_first v) df).

(** [cumprod()] of a column: the running product of the numbers met so
    far; a NaN cell stays NaN and leaves the product as it is. *)
Fixpoint cumprod_from (acc : F) (xs : seq cell) : seq cell :=
  match xs with
  | [::] => [::]
  | None :: xs' => None :: cumprod_from acc xs'
  | Some x :: xs' => Some (acc * x) :: cumprod_from (acc * x) xs'
  end.

Definition cumprod_col (xs : seq cell) : seq cell := cumprod_from 1 xs.

(** Lines 49-51. *)
Definition prices_from_returns (returns : DataFrame cell)
    : outcome (DataFrame cell) :=
  let ret := map_columns (map (omap (fun r => 1 + r))) returns in
  obind (iloc0_assign (Some 1) ret) (fun ret =>
  Value (map_columns cumprod_col ret)).

(** *** [mean_historical_return] *)

(** The numbers of a column, NaN cells left out. *)
Definition observed (xs : seq cell) : seq F := pmap id xs.

(** [mean()] of a column: the mean of its numbers, NaN when it has none. *)
Definition mean_col (xs : seq cell) : cell :=
  let ys := observed xs in
  if ys is [::] then None else Some (foldr +%R 0 ys / (size ys)%:R).

(** [series * frequency] *)
Definition scale_series (s : Series) (frequency : int) : Series :=
  [seq (c.1, omap (fun x => x * frequency%:~R) c.2) | c <- s].

(** [df.mean()]: one cell per column, under the column's label. *)
Definition frame_mean (df : DataFrame cell) : Series :=
  [seq (c.1, mean_col c.2) | c <- columns df].

(** Lines 70-71, for [prices] a DataFrame (the branch of line 67 that
    wraps another kind of argument is not part of this model). *)
Definition mean_historical_return (prices : DataFrame F) (frequency : int)
    : outcome Series :=
  obind (returns_from_prices prices) (fun returns =>
  Value (scale_series (frame_mean returns) frequency)).

(** *** [ema_historical_return] *)

(** [ewm(span=span)]: pandas turns the span into a centre of mass,
    [(span - 1) / 2], after rejecting a span below 1; the smoothing factor
    is [alpha = 1 / (1 + com)]. *)
Definition get_center_of_mass (span : int) : outcome F :=
  if (span < 1)%R then Raise ValueError else Value ((span%:~R - 1) / 2%:R).

Definition smoothing_factor (com : F) : F := 1 / (1 + com).

(** One turn of the loop of pandas' [ewma] (with its defaults
    [adjust=True], [ignore_na=False], [min_periods=0]) on the pair
    [(weighted_avg, old_wt)].  The counter [nobs] of the loop is left out:
    with [min_periods=0] it only masks the output while no number has been
    met, and [weighted_avg] is NaN exactly then. *)
Definition ewma_step (alpha : F) (st : cell * F) (cur : cell) : cell * F :=
  let: (weighted_avg, old_wt) := st in
  match weighted_avg, cur with
  | Some avg, Some x =>
      let new_wt : F := 1 in
      let old_wt := old_wt * (1 - alpha) in
      (if avg == x then Some avg
       else Some ((old_wt * avg + new_wt * x) / (old_wt + new_wt)),
       old_wt + new_wt)
  | Some avg, None => (Some avg, old_wt * (1 - alpha))
  | None, Some x => (Some x, old_wt)
  | None, None => (None, old_wt)
  end.

(** [ewm(...).mean()] of a column: the whole smoothed series. *)
Definition ewma_col (alpha : F) (xs : seq cell) : seq cell :=
  match xs with
  | [::] => [::]
  | x :: xs' => x :: [seq st.1 | st <- scanl (ewma_step alpha) (x, 1) xs']
  end.

(** [df.iloc[-1]]: the last row, as a series over the columns; a frame
    without rows has no last position. *)
Definition iloc_last (df : DataFrame cell) : outcome Series :=
  if index df is [::] then Raise IndexError
  else Value [seq (c.1, last None c.2) | c <- columns df].

(** Lines 93-94, for [prices] a DataFrame (see [mean_historical_return]).
    [returns_from_prices] never raises, so the rejection of [span] by
    [ewm] is the first exception that can escape. *)
Definition ema_historical_return (prices : DataFrame F) (frequency : int)
    (span : int) : outcome Series :=
  let returns := returns_from_prices prices in
  obind (get_center_of_mass span) (fun com =>
  obind returns (fun returns =>
  let smoothed := map_columns (ewma_col (smoothing_factor com)) returns in
  obind (iloc_last smoothed) (fun final =>
  Value (scale_series final frequency)))).

End Tables.
End Frame.

(** ** The linear system of the posterior, in the words of the spec *)

Section PosteriorSystem.

Variable F : fieldType.
Variables n k : nat.

(** [Omega_inv]: the diagonal matrix of the reciprocals of the diagonal of
    [Omega]. *)
Definition Omega_inv_spec (Omega : 'M[F]_k) : 'M[F]_k :=
  \matrix_(i, j) (if i == j then (Omega i i)^-1 else 0).

(** [A = inverse(tau * Sigma) + P^T * Omega_inv * P] *)
Definition A_spec (tau : F) (Sigma : 'M[F]_n) (P : 'M[F]_(k, n))
    (Omega : 'M[F]_k) : 'M[F]_n :=
  invmx (tau *: Sigma) + P^T *m Omega_inv_spec Omega *m P.

(** [b = inverse(tau * Sigma) * Pi + P^T * Omega_inv * Q] *)
Definition b_spec (tau : F) (Sigma : 'M[F]_n) (P : 'M[F]_(k, n))
    (Omega : 'M[F]_k) (Pi : 'cV[F]_n) (Q : 'cV[F]_k) : 'cV[F]_n :=
  invmx (tau *: Sigma) *m Pi + P^T *m Omega_inv_spec Omega *m Q.

(** The default of [Omega]: the diagonal of [tau * P * Sigma * P^T], zero
    off the diagonal. *)
Definition Omega_default_spec (tau : F) (P : 'M[F]_(k, n))
    (Sigma : 'M[F]_n) : 'M[F]_k :=
  \matrix_(i, j)
     (if i == j then (tau *: (P *m Sigma *m P^T)) i i else 0).

(** The default of [P]: the [n] x [n] identity. *)
Definition identity_spec : 'M[F]_n := \matrix_(i, j) (i == j)%:R.

End PosteriorSystem.

(** "The posterior approaches [Pi] as [tau] approaches 0 from above", for
    the call with [P] and [Omega] left out: every tolerance is met by all
    small enough positive [tau]. *)
Definition approaches_prior (R : realFieldType) (L : Type) (n : nat)
    (Pi : BL.Series R L n) (Sigma : 'M[R]_n) (Q : 'cV[R]_n) : Prop :=
  forall eps : R, 0 < eps ->
  exists2 delta : R, 0 < delta &
  forall tau : R, 0 < tau < delta ->
  exists2 x,
    BL.black_litterman_return Pi Sigma Q None (BL.PNone R n) tau = Value x
    & forall i, `|BL.values x i 0 - BL.values Pi i 0| < eps.

(** ** Tables, in the words of the spec *)

Section TableSpec.

Variable F : fieldType.
Variables T A : Type.

(** The period-over-period fractional changes of a price column:
    [(p_t - p_{t-1}) / p_{t-1}] for every row after the first. *)
Definition changes (xs : seq F) : seq F :=
  [seq (pq.2 - pq.1) / pq.1 | pq <- zip xs (behead xs)].

(** A column of [pct_change()] when every quotient is defined: NaN in the
    leading row, then the fractional changes. *)
Definition changes_after_nan (xs : seq F) : seq (Frame.cell F) :=
  if xs is [::] then [::] else None :: map Some (changes xs).

(** The return table of a price table whose quotients are all defined:
    the leading row is gone, every column holds its fractional changes,
    columns and remaining rows are in their order.  Without a column every
    row has all of its (no) entries undefined, and none is left. *)
Definition returns_spec (prices : Frame.DataFrame T A F)
    : Frame.DataFrame T A (Frame.cell F) :=
  Frame.mkFrame
    (if Frame.columns prices is [::] then [::]
     else behead (Frame.index prices))
    [seq (c.1, map Some (changes c.2)) | c <- Frame.columns prices].

(** A price column rebased: every price divided by [base]. *)
Definition rebased (base : F) (xs : seq F) : seq (Frame.cell F) :=
  [seq Some (x / base) | x <- xs].

(** C7 as stated: first row 1, then the price of each later row over the
    first price of the asset. *)
Definition growth_from_first (prices : Frame.DataFrame T A F)
    : Frame.DataFrame T A (Frame.cell F) :=
  Frame.mkFrame (behead (Frame.index prices))
    [seq (c.1, Some 1 :: rebased (head 0 c.2) (behead (behead c.2)))
    | c <- Frame.columns prices].

(** What the code does: first row 1, then the price of each later row over
    the second price of the asset, the one in the first row kept. *)
Definition growth_from_second (prices : Frame.DataFrame T A F)
    : Frame.DataFrame T A (Frame.cell F) :=
  Frame.mkFrame (behead (Frame.index prices))
    [seq (c.1, Some 1 :: rebased (nth 0 c.2 1) (behead (behead c.2)))
    | c <- Frame.columns prices].

(** The arithmetic mean of a column of numbers; NaN for an empty one. *)
Definition arithmetic_mean (ys : seq F) : Frame.cell F :=
  if ys is [::] then None
  else Some ((\sum_(y <- ys) y) / (size ys)%:R).

(** The exponentially weighted average of a column, the weight of an entry
    decaying by the factor [q] with each step into the past: the entry [i]
    of [n] has weight [q ^ (n - 1 - i)], so the last entry has weight 1. *)
Definition decayed_sum (q : F) (ys : seq F) : F :=
  \sum_(i < size ys) q ^+ (size ys - i.+1) * nth 0 ys i.

Definition decayed_weight (q : F) (n : nat) : F :=
  \sum_(i < n) q ^+ (n - i.+1).

Definition ewma_weighted (q : F) (ys : seq F) : F :=
  decayed_sum q ys / decayed_weight q (size ys).

(** The smoothing factor of a span: [alpha = 2 / (span + 1)]. *)
Definition alpha_of_span (span : int) : F := 2%:R / (span%:~R + 1).

End TableSpec.

Arguments changes : simpl never.

Section Prices.

Variable R : numFieldType.
Variables T A : Type.

(** A price table: every column has one price per row, and every price is
    positive. *)
Definition price_table (prices : Frame.DataFrame T A R) : bool :=
  Frame.well_formed prices
  && all (fun c => all (fun x => 0 < x) c.2) (Frame.columns prices).

(** Every asset has the same price in all rows. *)
Definition constant_prices (prices : Frame.DataFrame T A R) : bool :=
  all (fun c => all (fun x => x == head 0 c.2) c.2) (Frame.columns prices).

(** Every cell of a table is the number 0. *)
Definition all_zero (df : Frame.DataFrame T A (Frame.cell R)) : bool :=
  all (fun c => all (fun y => y == Some 0) c.2) (Frame.columns df).

End Prices.

(** ** Further notions on tables *)

Section TableNotions.

Variable F : fieldType.
Variables T A : Type.

(** The prices of every asset multiplied by a factor of its own (another
    currency, a share split). *)
Definition rescale (g : A -> F) (prices : Frame.DataFrame T A F)
    : Frame.DataFrame T A F :=
  Frame.mkFrame (Frame.index prices)
    [seq (c.1, [seq g c.1 * x | x <- c.2]) | c <- Frame.columns prices].

(** A table of numbers as a table of cells, none of them NaN. *)
Definition numbers (df : Frame.DataFrame T A F)
    : Frame.DataFrame T A (Frame.cell F) :=
  Frame.map_columns (map Some) df.

(** A table without its leading row. *)
Definition drop_first_row C (df : Frame.DataFrame T A C)
    : Frame.DataFrame T A C :=
  Frame.mkFrame (behead (Frame.index df))
    [seq (c.1, behead c.2) | c <- Frame.columns df].

(** The pseudo-prices compounded from a column of returns: 1 in the row of
    the first return, then the running product of [1 + r] over the later
    ones. *)
Definition compound (rs : seq F) : seq F :=
  if rs is _ :: rs' then 1 :: scanl (fun p r => p * (1 + r)) 1 rs'
  else [::].

(** Every price of a column over the first one. *)
Definition growth_of (xs : seq F) : seq (Frame.cell F) :=
  rebased (head 0 xs) xs.

End TableNotions.

Section Bounds.

Variable R : numFieldType.

(** A cell that holds a number between [lo] and [hi]. *)
Definition cell_within (lo hi : R) (c : Frame.cell R) : bool :=
  if c is Some v then lo <= v <= hi else false.

(** A cell that holds a number above [lo]. *)
Definition cell_above (lo : R) (c : Frame.cell R) : bool :=
  if c is Some v then lo < v else false.

End Bounds.

(** * The same program in binary64

    Where rounding decides what a call does, the exact field says nothing
    about the program.  This module runs the functions on IEEE 754 binary64
    numbers (the kernel's [PrimFloat], the arithmetic of NumPy's
    [float64]): NaN and the infinities are numbers of the type, so no
    outcome [NonFinite] occurs here.  A decimal literal denotes the
    binary64 number nearest to it, as it does in Python.  Arrays are
    lists, and the arguments of a call are taken to have matching shapes
    ([well_shaped]): NumPy rejects the others before any of the steps
    below. *)

Module Binary64.

(** ** Tables *)

Section Tables.

Variables T A : Type.

(** A column of [pct_change()], that is of [data / data.shift(1) - 1]:
    NaN in the first row, then each price over the one before, less 1. *)
Definition pct_change_col (xs : seq float) : seq float :=
  match xs with
  | [::] => [::]
  | x :: xs' =>
      nan :: [seq (pq.2 / pq.1 - 1)%float | pq <- zip (x :: xs') xs']
  end.

Definition pct_change (prices : Frame.DataFrame T A float)
    : Frame.DataFrame T A float :=
  Frame.map_columns pct_change_col prices.

(** Row [i] holds a number in some column. *)
Definition row_has_value (df : Frame.DataFrame T A float) (i : nat) : bool :=
  has (fun c => ~~ is_nan (nth nan c.2 i)) (Frame.columns df).

(** [dropna(how="all")] *)
Definition dropna_all (df : Frame.DataFrame T A float)
    : Frame.DataFrame T A float :=
  let keep := [seq row_has_value df i | i <- iota 0 (Frame.n_rows df)] in
  Frame.mkFrame (mask keep (Frame.index df))
                [seq (c.1, mask keep c.2) | c <- Frame.columns df].

(** Line 35. *)
Definition returns_from_prices (prices : Frame.DataFrame T A float)
    : Frame.DataFrame T A float :=
  dropna_all (pct_change prices).

(** [mean()] of a column: the sum of its numbers over their count, NaN
    cells left out; [0 / 0], a NaN, when it has none.  The count is the
    float of their number.  NumPy picks the order of the additions by the
    length and the layout of the array; they are made from the top here,
    its order on a short column. *)
Definition mean_col (xs : seq float) : float :=
  let ys := [seq x <- xs | ~~ is_nan x] in
  (foldl PrimFloat.add 0 ys / foldl (fun n _ => n + 1) 0 ys)%float.

(** Lines 70-71, for [prices] a DataFrame; [frequency] is the float of
    the integer passed. *)
Definition mean_historical_return (prices : Frame.DataFrame T A float)
    (frequency : float) : seq (A * float) :=
  [seq (c.1, (mean_col c.2 * frequency)%float)
  | c <- Frame.columns (returns_from_prices prices)].

End Tables.

(** The one-asset price table [[100, 110]]. *)
Definition two_rows : Frame.DataFrame nat nat float :=
  Frame.mkFrame [:: 0; 1]%N [:: (0%N, [:: 100; 110]%float)].

(** ** Arrays *)

Definition vector : Type := seq float.

(** A 2-D array, row by row. *)
Definition matrix : Type := seq vector.


Definition dot (u v : vector) : float :=
  foldl (fun acc p => (acc + p.1 * p.2)%float) 0%float (zip u v).

(** [M.T], for [M] with [n] columns. *)
Definition transpose (n : nat) (M : matrix) : matrix :=
  [seq [seq nth 0%float r j | r <- M] | j <- iota 0 n].

(** [X @ Y], for [Y] with [n] columns. *)
Definition matmul (n : nat) (X Y : matrix) : matrix :=
  [seq [seq dot r c | c <- transpose n Y] | r <- X].

(** [X.dot(v)] *)
Definition matvec (X : matrix) (v : vector) : vector :=
  [seq dot r v | r <- X].

(** [t * M] *)
Definition scale (t : float) (M : matrix) : matrix :=
  [seq [seq (t * x)%float | x <- r] | r <- M].

Definition vadd (u v : vector) : vector :=
  [seq (p.1 + p.2)%float | p <- zip u v].

Definition madd (X Y : matrix) : matrix :=
  [seq vadd p.1 p.2 | p <- zip X Y].

(** [np.eye(n)] *)
Definition eye (n : nat) : matrix :=
  [seq [seq if i == j then 1%float else 0%float | j <- iota 0 n]
  | i <- iota 0 n].

(** [np.diag] of a square 2-D array. *)
Definition diag_of (M : matrix) : vector :=
  [seq nth 0%float (nth [::] M i) i | i <- iota 0 (size M)].

(** [np.diag] of a 1-D array. *)
Definition diag_from (d : vector) : matrix :=
  [seq [seq if i == j then nth 0%float d i else 0%float
       | j <- iota 0 (size d)]
  | i <- iota 0 (size d)].

(** ** [np.linalg.inv] and [np.linalg.solve]

    Both call LAPACK's [gesv]: Gaussian elimination with partial pivoting
    ([getrf]) on the binary64 array, then substitution ([getrs]).  The
    routine reports a singular matrix, and NumPy raises [LinAlgError],
    exactly when a pivot is the number zero.  The operations are taken in
    the order of the reference implementation; a tuned library may order
    or fuse them otherwise, which moves the last digits of a result (all
    of them, on an ill-conditioned system). *)

(** A row of the system [A X = B] during the elimination: the row of [A]
    from the current column on, and the row of [B]. *)
Definition row : Type := (vector * vector)%type.

Definition lead (r : row) : float := head 0%float r.1.

(** [idamax]: the position of the first leading entry of largest
    magnitude, [best] of magnitude [big] being the one found so far. *)
Fixpoint idamax (best : nat) (big : float) (i : nat) (rs : seq row) : nat :=
  match rs with
  | [::] => best
  | r :: rs' =>
      if (big <? PrimFloat.abs (lead r))%float
      then idamax i (PrimFloat.abs (lead r)) i.+1 rs'
      else idamax best big i.+1 rs'
  end.

(** The smallest normal number: below it LAPACK divides by the pivot, from
    it on it multiplies by the reciprocal of the pivot. *)
Definition sfmin : float := 0x1p-1022%float.

Definition multiplier (pivot x : float) : float :=
  if (PrimFloat.abs pivot <? sfmin)%float then (x / pivot)%float
  else (x * (1 / pivot))%float.

(** Row [r] less its multiple of the pivot row [p]. *)
Definition reduce (p r : row) : row :=
  let l := multiplier (lead p) (lead r) in
  ([seq (x.1 - l * x.2)%float | x <- zip (behead r.1) (behead p.1)],
   [seq (x.1 - l * x.2)%float | x <- zip r.2 p.2]).

(** The elimination on [n] rows: the pivot row is exchanged with the first
    one, and the rows below are reduced.  The result is the rows of the
    triangular factor, each with its row of the right-hand side. *)
Fixpoint getrf (n : nat) (rs : seq row) : outcome (seq row) :=
  match n, rs with
  | n'.+1, r0 :: rest =>
      let p := idamax 0 (PrimFloat.abs (lead r0)) 1 rest in
      let pr := nth r0 (r0 :: rest) p in
      let others := if p is p'.+1 then set_nth r0 rest p' r0 else rest in
      if (lead pr =? 0)%float then Raise LinAlgError
      else obind (getrf n' [seq reduce pr r | r <- others])
                 (fun us => Value (pr :: us))
  | _, _ => Value [::]
  end.

(** Back substitution for one row: the solutions [xs] of the later rows,
    taken from the last one back, are subtracted, and the rest is divided
    by the pivot. *)
Definition back_row (u : row) (xs : seq vector) : vector :=
  let rest :=
    foldl (fun b t => [seq (y.1 - y.2 * t.1)%float | y <- zip b t.2])
          u.2 (rev (zip (behead u.1) xs)) in
  [seq (y / lead u)%float | y <- rest].

Definition back_substitute (us : seq row) : seq vector :=
  foldr (fun u xs => back_row u xs :: xs) [::] us.

Definition gesv (M B : matrix) : outcome matrix :=
  omap_outcome back_substitute (getrf (size M) (zip M B)).

Definition linalg_inv (M : matrix) : outcome matrix :=
  gesv M (eye (size M)).

Definition linalg_solve (M : matrix) (b : vector) : outcome vector :=
  omap_outcome (map (head 0%float)) (gesv M [seq [:: y] | y <- b]).

(** ** [black_litterman_return] *)

Section Posterior.

Variable L : Type.

Record Series : Type := mkSeries {
  index : seq L;
  values : vector
}.

(** Lines 118-119. *)
Definition default_P (P : option matrix) (Sigma : matrix) : matrix :=
  if P is Some P0 then P0 else eye (size Sigma).

(** Lines 120-121: [tau * P @ Sigma @ P.T] is [((tau * P) @ Sigma) @ P.T]. *)
Definition default_Omega (Omega : option matrix) (tau : float)
    (P Sigma : matrix) : matrix :=
  if Omega is Some Omega0 then Omega0
  else
    let n := size Sigma in
    diag_from
      (diag_of (matmul (size P) (matmul n (scale tau P) Sigma)
                  (transpose n P))).

(** Lines 123-124: [P.T @ np.diag(1.0 / np.diag(Omega))]. *)
Definition views_weight (Omega P Sigma : matrix) : matrix :=
  matmul (size P) (transpose (size Sigma) P)
    (diag_from [seq (1 / d)%float | d <- diag_of Omega]).

(** Line 127. *)
Definition system_matrix (tau_Sigma_inv P_Omega_inv P : matrix) : matrix :=
  madd tau_Sigma_inv (matmul (size tau_Sigma_inv) P_Omega_inv P).

(** Line 128. *)
Definition system_rhs (tau_Sigma_inv P_Omega_inv : matrix) (Pi Q : vector)
    : vector :=
  vadd (matvec tau_Sigma_inv Pi) (matvec P_Omega_inv Q).

(** Lines 118-130. *)
Definition black_litterman_return (Pi : Series) (Sigma : matrix) (Q : vector)
    (Omega P : option matrix) (tau : float) : outcome Series :=
  let P := default_P P Sigma in
  let Omega := default_Omega Omega tau P Sigma in
  let P_Omega_inv := views_weight Omega P Sigma in
  obind (linalg_inv (scale tau Sigma)) (fun tau_Sigma_inv =>
  let A := system_matrix tau_Sigma_inv P_Omega_inv P in
  let b := system_rhs tau_Sigma_inv P_Omega_inv (values Pi) Q in
  obind (linalg_solve A b) (fun x => Value (mkSeries (index Pi) x))).


End Posterior.

(** A covariance that is singular: its second row is three times its
    first. *)
Definition Sigma_singular : matrix := [:: [:: 1; 3]; [:: 3; 9]]%float.


(** A covariance of zeros. *)
Definition Sigma_zero : matrix := [:: [:: 0; 0]; [:: 0; 0]]%float.



End Binary64.

(** ** Closed inputs over the rationals *)

Module PosteriorExample.

(** Two assets, [Sigma = 4 I], [tau = 1/20], views on each asset with
    [Omega = (1/2) I]. *)
Definition assets : 2.-tuple nat := [tuple 0%N; 1%N].
Definition Pi : BL.Series rat nat 2 :=
  BL.mkSeries assets (\col_i (i%:R + 1)).
Definition Sigma : 'M[rat]_2 := 4%:R%:M.
Definition Q : 'cV[rat]_2 := const_mx 3%:R.
Definition P : 'M[rat]_2 := 1%:M.
Definition Omega : 'M[rat]_2 := (2%:R^-1)%:M.
Definition tau : rat := 20%:R^-1.

(** [Omega] with a term added off the diagonal. *)
Definition Omega_coupled : 'M[rat]_2 := Omega + delta_mx 0 1.

(** A covariance of zeros. *)
Definition Sigma_zero : 'M[rat]_2 := 0.

(** A singular covariance, [[1, 3], [3, 9]]. *)
Definition Sigma_singular : 'M[rat]_2 := \matrix_(i, j) (3 ^ (i + j))%:R.

(** One asset, [Sigma = 1], [tau = 1], prior 5; a view uncertainty of -1
    cancels the precision of the prior. *)
Definition asset1 : 1.-tuple nat := [tuple 0%N].
Definition Pi1 : BL.Series rat nat 1 := BL.mkSeries asset1 (const_mx 5%:R).
Definition Sigma1 : 'M[rat]_1 := 1%:M.
Definition Omega_neg : 'M[rat]_1 := (-1)%:M.

(** One asset, prior 0 and view 2. *)
Definition Pi0 : BL.Series rat nat 1 := BL.mkSeries asset1 (const_mx 0).
Definition Q2 : 'cV[rat]_1 := const_mx 2%:R.

(** A second prior and second views for the two assets. *)
Definition prior' : 'cV[rat]_2 := const_mx 7%:R.
Definition Q' : 'cV[rat]_2 := \col_i (i%:R - 1).

(** No view at all. *)
Definition P_none : 'M[rat]_(0, 2) := 0.
Definition Q_none : 'cV[rat]_0 := 0.

(** Variances 1 and 2, no covariance. *)
Definition variances : 'rV[rat]_2 := \row_i (i%:R + 1).

End PosteriorExample.

Module TableExample.

(** One asset, the two prices 100 and 110. *)
Definition two_rows : Frame.DataFrame nat nat rat :=
  Frame.mkFrame [:: 0; 1]%N [:: (0%N, [:: 100%:Q; 110%:Q])].

(** Two assets over three dates. *)
Definition three_rows : Frame.DataFrame nat nat rat :=
  Frame.mkFrame [:: 0; 1; 2]%N
    [:: (0%N, [:: 100%:Q; 110%:Q; 132%:Q]);
        (1%N, [:: 8%:Q; 4%:Q; 5%:Q])].

(** One asset at a constant price. *)
Definition flat_rows : Frame.DataFrame nat nat rat :=
  Frame.mkFrame [:: 0; 1; 2]%N [:: (0%N, [:: 7%:Q; 7%:Q; 7%:Q])].

(** A price table with a single row. *)
Definition one_row : Frame.DataFrame nat nat rat :=
  Frame.mkFrame [:: 0]%N [:: (0%N, [:: 100%:Q])].

(** Two dates and no asset. *)
Definition no_asset : Frame.DataFrame nat nat rat :=
  Frame.mkFrame [:: 0; 1]%N [::].

(** The returns of [three_rows]. *)
Definition three_rows_returns : Frame.DataFrame nat nat (Frame.cell rat) :=
  Frame.mkFrame [:: 1; 2]%N
    [:: (0%N, [:: Some (10%:Q^-1); Some (5%:Q^-1)]);
        (1%N, [:: Some (- 2%:Q^-1); Some (4%:Q^-1)])].

(** A table of returns over three dates. *)
Definition some_returns : Frame.DataFrame nat nat rat :=
  Frame.mkFrame [:: 1; 2; 3]%N
    [:: (0%N, [:: 10%:Q^-1; 5%:Q^-1; - 4%:Q^-1]);
        (1%N, [:: - 2%:Q; 4%:Q^-1; 0])].

(** A factor for every asset: 2 for asset 0, 1/3 for the others. *)
Definition factor (a : nat) : rat := if a == 0%N then 2%:Q else 3%:Q^-1.

End TableExample.

(** ** Facts about the Black-Litterman posterior *)

Section PosteriorFacts.

Import BL.

Variable F : fieldType.
Variable L : Type.

Section Shapes.

Variables n k : nat.
Implicit Types (Pi : Series F L n) (Sigma : 'M[F]_n) (Q : 'cV[F]_k).
Implicit Types (Omega : 'M[F]_k) (P : 'M[F]_(k, n)) (tau : F).

Lemma diag_from_recip Omega :
  diag_from (map_mx GRing.inv (diag_of Omega)) = Omega_inv_spec Omega.
Proof.
apply/matrixP => i j; rewrite /diag_from /diag_of /Omega_inv_spec !mxE.
by case: (i == j) => //=; rewrite mulr1n.
Qed.

Lemma reciprocal_finite Omega :
  (forall i, Omega i i != 0) ->
  reciprocal (diag_of Omega) = Some (map_mx GRing.inv (diag_of Omega)).
Proof.
move=> nz; rewrite /reciprocal ifT //.
by apply/forallP => i; rewrite /diag_of mxE.
Qed.

Lemma reciprocal_infinite Omega :
  ~ (forall i, Omega i i != 0) -> reciprocal (diag_of Omega) = None.
Proof.
move=> nz; rewrite /reciprocal ifF //; apply/negP => /forallP h.
by apply: nz => i; move: (h i); rewrite /diag_of mxE.
Qed.

(** The body of the function once the inverse of [tau * Sigma] exists and
    the reciprocals are finite: one call to the solver. *)
Lemma black_litterman_return_solve Pi Sigma Q (oOmega : option 'M[F]_k)
    (vP : view_arg F n k) tau :
  let P := default_P vP in
  let Omega := default_Omega oOmega tau P Sigma in
  tau *: Sigma \in unitmx ->
  (forall i, Omega i i != 0) ->
  black_litterman_return Pi Sigma Q oOmega vP tau =
  obind (linalg_solve (A_spec tau Sigma P Omega)
                      (b_spec tau Sigma P Omega (values Pi) Q))
        (fun x => Value (mkSeries (index Pi) x)).
Proof.
move=> P Omega uS nz.
rewrite /black_litterman_return /linalg_inv uS -/P -/Omega.
by rewrite (reciprocal_finite nz) /= diag_from_recip.
Qed.

(** A zero on the diagonal of [Omega] puts an infinity into [Omega_inv]:
    once [tau * Sigma] has been inverted the call is past every check and
    computes with it. *)
Lemma black_litterman_return_nonfinite Pi Sigma Q (oOmega : option 'M[F]_k)
    (vP : view_arg F n k) tau :
  let P := default_P vP in
  let Omega := default_Omega oOmega tau P Sigma in
  tau *: Sigma \in unitmx ->
  ~ (forall i, Omega i i != 0) ->
  black_litterman_return Pi Sigma Q oOmega vP tau = NonFinite.
Proof.
move=> P Omega uS nz.
rewrite /black_litterman_return /linalg_inv uS -/P -/Omega.
by rewrite (reciprocal_infinite nz).
Qed.

(** C1.  For [Omega] with a nonzero diagonal, [tau * Sigma] invertible and
    [A] invertible, the call returns a series with the index of [Pi] whose
    values [x] solve [A x = b] (and are the only solution), where
    [A = inverse(tau Sigma) + P^T Omega_inv P] and
    [b = inverse(tau Sigma) Pi + P^T Omega_inv Q]. *)
Theorem black_litterman_return_posterior Pi Sigma Q Omega P tau :
  (forall i, Omega i i != 0) ->
  tau *: Sigma \in unitmx ->
  A_spec tau Sigma P Omega \in unitmx ->
  exists x : 'cV[F]_n,
    [/\ black_litterman_return Pi Sigma Q (Some Omega) (PGiven P) tau
          = Value (mkSeries (index Pi) x),
        A_spec tau Sigma P Omega *m x = b_spec tau Sigma P Omega (values Pi) Q
      & forall y, A_spec tau Sigma P Omega *m y
                    = b_spec tau Sigma P Omega (values Pi) Q -> y = x].
Proof.
move=> nz uS uA.
exists (invmx (A_spec tau Sigma P Omega)
          *m b_spec tau Sigma P Omega (values Pi) Q).
split; last by move=> y <-; rewrite mulKmx.
  by rewrite black_litterman_return_solve //= /linalg_solve uA.
by rewrite mulKVmx.
Qed.

(** C4.  Only the diagonal of [Omega] is read: two matrices with the same
    diagonal give the same outcome. *)
Theorem black_litterman_return_diag_only Pi Sigma Q Omega1 Omega2
    (vP : view_arg F n k) tau :
  (forall i, Omega1 i i = Omega2 i i) ->
  black_litterman_return Pi Sigma Q (Some Omega1) vP tau
  = black_litterman_return Pi Sigma Q (Some Omega2) vP tau.
Proof.
move=> eqd; rewrite /black_litterman_return /=.
suff -> : diag_of Omega1 = diag_of Omega2 by [].
by apply/rowP => i; rewrite !mxE.
Qed.

(** In exact arithmetic a singular [tau * Sigma] makes the call raise
    [LinAlgError]; so does a singular [A] at the solve step (for an [A]
    that is a matrix of numbers: [tau * Sigma] invertible, reciprocals
    finite).  In binary64 the products are rounded first, and a matrix
    that is singular here need not be singular there. *)
Lemma exact_singular_raises Pi Sigma Q
    (oOmega : option 'M[F]_k) (vP : view_arg F n k) tau :
  let P := default_P vP in
  let Omega := default_Omega oOmega tau P Sigma in
  tau *: Sigma \notin unitmx \/
  [/\ tau *: Sigma \in unitmx, forall i, Omega i i != 0
     & A_spec tau Sigma P Omega \notin unitmx] ->
  black_litterman_return Pi Sigma Q oOmega vP tau = Raise LinAlgError.
Proof.
move=> P Omega [nuS | [uS nz nuA]].
  by rewrite /black_litterman_return /linalg_inv (negbTE nuS).
by rewrite black_litterman_return_solve //= /linalg_solve (negbTE nuA).
Qed.

Lemma default_Omega_None tau P Sigma :
  default_Omega None tau P Sigma = Omega_default_spec tau P Sigma.
Proof.
rewrite /default_Omega -!scalemxAl.
apply/matrixP => i j; rewrite /diag_from /diag_of /Omega_default_spec.
rewrite [LHS]mxE [in LHS]mxE [RHS]mxE.
by case: eqP => [->|_] //=; rewrite mulr1n.
Qed.

End Shapes.

Section Defaults.

Variable n : nat.
Implicit Types (Pi : Series F L n) (Sigma : 'M[F]_n).

Lemma eye_identity : eye F n = identity_spec F n.
Proof. by apply/matrixP => i j; rewrite /eye /identity_spec !mxE. Qed.

(** C2.  An absent [P] is the [n] x [n] identity, an absent [Omega] is the
    diagonal matrix with the diagonal of [tau * P * Sigma * P^T] and zeros
    elsewhere: the call with an argument left out is the call with that
    value passed. *)
Theorem black_litterman_return_defaults :
  [/\ forall Pi Sigma (Q : 'cV[F]_n) (oOmega : option 'M[F]_n) tau,
        black_litterman_return Pi Sigma Q oOmega (PNone F n) tau
        = black_litterman_return Pi Sigma Q oOmega
            (PGiven (identity_spec F n)) tau,
      forall k Pi Sigma (Q : 'cV[F]_k) (P : 'M[F]_(k, n)) tau,
        black_litterman_return Pi Sigma Q None (PGiven P) tau
        = black_litterman_return Pi Sigma Q
            (Some (Omega_default_spec tau P Sigma)) (PGiven P) tau
    & forall Pi Sigma (Q : 'cV[F]_n) tau,
        black_litterman_return Pi Sigma Q None (PNone F n) tau
        = black_litterman_return Pi Sigma Q
            (Some (Omega_default_spec tau (identity_spec F n) Sigma))
            (PGiven (identity_spec F n)) tau].
Proof.
split=> [Pi Sigma Q oOmega tau | k Pi Sigma Q P tau | Pi Sigma Q tau].
- by rewrite /black_litterman_return /= eye_identity.
- by rewrite /black_litterman_return -default_Omega_None.
- by rewrite /black_litterman_return -default_Omega_None /= eye_identity.
Qed.

Lemma identity_spec1 : identity_spec F n = 1%:M.
Proof. by rewrite -eye_identity. Qed.

Lemma Series_eta Pi : mkSeries (index Pi) (values Pi) = Pi.
Proof. by case: Pi. Qed.

(** With [Q = Pi] and [P] the identity, [b] is [A] applied to [Pi]. *)
Lemma b_spec_prior_views tau Sigma (Omega : 'M[F]_n) (v : 'cV[F]_n) :
  b_spec tau Sigma 1%:M Omega v v = A_spec tau Sigma 1%:M Omega *m v.
Proof. by rewrite /b_spec /A_spec trmx1 mulmx1 mul1mx mulmxDl. Qed.

(** C10, amended.  With [Q = Pi] and [P] the identity the call returns
    [Pi] itself, for every [Omega] with a nonzero diagonal, provided
    [tau * Sigma] and [A = inverse(tau Sigma) + Omega_inv] are invertible. *)
Theorem black_litterman_return_fixed_point Pi Sigma (Omega : 'M[F]_n) tau :
  (forall i, Omega i i != 0) ->
  tau *: Sigma \in unitmx ->
  A_spec tau Sigma (identity_spec F n) Omega \in unitmx ->
  black_litterman_return Pi Sigma (values Pi) (Some Omega)
    (PGiven (identity_spec F n)) tau = Value Pi.
Proof.
rewrite identity_spec1 => nz uS uA.
rewrite black_litterman_return_solve //= /linalg_solve uA /=.
by rewrite b_spec_prior_views mulKmx // Series_eta.
Qed.

(** *** The defaults make the posterior independent of [tau] *)

Lemma diag_of_default (tau : F) Sigma :
  diag_of (default_Omega None tau (eye F n) Sigma) = tau *: diag_of Sigma.
Proof.
rewrite default_Omega_None /eye /Omega_default_spec trmx1 mulmx1 mul1mx.
by apply/rowP => i; rewrite /diag_of !mxE eqxx.
Qed.

Lemma reciprocal_scale (tau : F) (d : 'rV[F]_n) :
  tau != 0 ->
  reciprocal (tau *: d) = omap (fun r => tau^-1 *: r) (reciprocal d).
Proof.
move=> tau0; rewrite /reciprocal.
have -> : [forall i, (tau *: d) 0 i != 0] = [forall i, d 0 i != 0].
  by apply: eq_forallb => i; rewrite mxE mulf_eq0 negb_or tau0.
case: ifP => //= _; congr Some.
by apply/rowP => i; rewrite !mxE invfM.
Qed.

Lemma linalg_solve_scale (c : F) (A : 'M[F]_n) (b : 'cV[F]_n) :
  c != 0 -> linalg_solve (c *: A) (c *: b) = linalg_solve A b.
Proof.
move=> c0; rewrite /linalg_solve unitmxZ ?unitfE //.
case uA: (A \in unitmx) => //; congr Value.
rewrite invmxZ ?unitmxZ ?unitfE // -scalemxAl -scalemxAr scalerA.
by rewrite mulVf // scale1r.
Qed.

(** The call with both defaults, at any [tau <> 0], is the call at
    [tau = 1]: the default [Omega] is proportional to [tau], and [tau]
    cancels in [A x = b]. *)
Lemma defaults_tau_free Pi Sigma (Q : 'cV[F]_n) (tau : F) :
  tau != 0 ->
  black_litterman_return Pi Sigma Q None (PNone F n) tau
  = black_litterman_return Pi Sigma Q None (PNone F n) 1.
Proof.
move=> tau0; rewrite /black_litterman_return /= !diag_of_default.
rewrite scale1r reciprocal_scale // /linalg_inv scale1r.
rewrite unitmxZ ?unitfE //.
case uS: (Sigma \in unitmx) => //.
rewrite invmxZ ?unitmxZ ?unitfE //.
case: (reciprocal (diag_of Sigma)) => [r|] //=.
have dE : tau *: diag_from (tau^-1 *: r) = diag_from r.
  by rewrite /diag_from -linearZ /= scalerA divff // scale1r.
rewrite -(linalg_solve_scale _ _ tau0) /eye trmx1 !mul1mx mulmx1.
rewrite !scalerDr -!scalemxAl !scalerA divff // !scale1r.
by rewrite scalemxAl dE mulmx1.
Qed.

End Defaults.

(** *** Scalar covariance and view uncertainty *)

Section Scalars.

Variable n : nat.
Implicit Types (tau s w : F) (Pi : Series F L n).

Lemma unitmx_scalar (a : F) : a != 0 -> (a%:M : 'M[F]_n) \in unitmx.
Proof. by move=> a0; rewrite unitmxE det_scalar unitfE expf_neq0. Qed.

Lemma Omega_inv_spec_scalar w :
  Omega_inv_spec (w%:M : 'M[F]_n) = (w^-1)%:M.
Proof.
apply/matrixP => i j; rewrite /Omega_inv_spec !mxE eqxx mulr1n.
by case: (i == j) => //=; rewrite mulr1n.
Qed.

Lemma A_spec_scalar tau s w :
  A_spec tau (s%:M : 'M[F]_n) 1%:M (w%:M : 'M[F]_n)
  = ((tau * s)^-1 + w^-1)%:M.
Proof.
rewrite /A_spec scale_scalar_mx invmx_scalar Omega_inv_spec_scalar.
by rewrite trmx1 mul1mx mulmx1 raddfD.
Qed.

Lemma b_spec_scalar tau s w (v q : 'cV[F]_n) :
  b_spec tau (s%:M : 'M[F]_n) 1%:M (w%:M : 'M[F]_n) v q
  = (tau * s)^-1 *: v + w^-1 *: q.
Proof.
rewrite /b_spec scale_scalar_mx invmx_scalar Omega_inv_spec_scalar.
by rewrite trmx1 mul1mx !mul_scalar_mx.
Qed.

Lemma default_Omega_scalar tau s :
  default_Omega None tau (eye F n) (s%:M : 'M[F]_n) = (tau * s)%:M.
Proof.
rewrite default_Omega_None /eye /Omega_default_spec trmx1 mulmx1 mul1mx.
rewrite scale_scalar_mx; apply/matrixP => i j; rewrite !mxE eqxx.
by case: (i == j).
Qed.

(** With [Sigma = s I] and both defaults the posterior is the midpoint of
    the prior and the views, whatever [tau <> 0]. *)
Lemma defaults_scalar_covariance tau s Pi (Q : 'cV[F]_n) :
  tau * s != 0 -> (2%:R : F) != 0 ->
  black_litterman_return Pi s%:M Q None (PNone F n) tau
  = Value (mkSeries (index Pi) (2%:R^-1 *: (values Pi + Q))).
Proof.
move=> ts0 two0.
have ti0 : (tau * s)^-1 != 0 by rewrite invr_eq0.
have uS : tau *: (s%:M : 'M[F]_n) \in unitmx.
  by rewrite scale_scalar_mx unitmx_scalar.
rewrite black_litterman_return_solve //.
  by move=> i; rewrite default_Omega_scalar mxE eqxx mulr1n.
rewrite default_Omega_scalar A_spec_scalar b_spec_scalar /linalg_solve.
have -> : (tau * s)^-1 + (tau * s)^-1 = 2%:R * (tau * s)^-1.
  by rewrite mulr2n mulrDl mul1r.
rewrite unitmx_scalar ?mulf_neq0 //= invmx_scalar mul_scalar_mx.
rewrite -scalerDr scalerA invfM mulrAC -mulrA divff // mulr1.
by [].
Qed.

End Scalars.
End PosteriorFacts.

(** ** Facts about the tables *)

Section TableFacts.

Import Frame.

Variable R : numFieldType.
Variables T A : Type.

Implicit Types (prices : DataFrame T A R) (xs : seq R).
Implicit Types (df : DataFrame T A (cell R)).

(** *** [traverse] *)

Lemma traverse_values U V (f : U -> outcome V) (g : U -> V) (p : pred U)
    (s : seq U) :
  (forall x, p x -> f x = Value (g x)) ->
  all p s -> traverse f s = Value (map g s).
Proof.
move=> fg; elim: s => [|x s IHs] //= /andP [px ps].
by rewrite fg // IHs.
Qed.

Lemma eq_map_all U V (f g : U -> V) (p : pred U) (s : seq U) :
  (forall x, p x -> f x = g x) -> all p s -> map f s = map g s.
Proof.
by move=> fg; elim: s => [|x s IHs] //= /andP [px ps]; rewrite fg // IHs.
Qed.

Lemma all_both U (p q : pred U) (s : seq U) :
  all p s -> all q s -> all (fun x => p x && q x) s.
Proof.
elim: s => [|x s IHs] //= /andP [-> ps] /andP [-> qs] /=.
exact: IHs.
Qed.

Lemma zip_labels_map C D (f : seq C -> seq D) (cols : seq (A * seq C)) :
  zip (unzip1 cols) (map f (unzip2 cols)) = [seq (c.1, f c.2) | c <- cols].
Proof. by elim: cols => [|c cols IHc] //=; rewrite IHc. Qed.

(** *** [pct_change] on positive prices *)

Lemma size_changes xs : size (changes xs) = (size xs).-1.
Proof.
rewrite /changes size_map size_zip size_behead.
by apply/minn_idPr; exact: leq_pred.
Qed.

Lemma nth_changes xs t :
  (t.+1 < size xs)%N ->
  nth 0 (changes xs) t = (nth 0 xs t.+1 - nth 0 xs t) / nth 0 xs t.
Proof.
move=> lt_t.
have lt_z : (t < size (zip xs (behead xs)))%N.
  rewrite size_zip size_behead leq_min (ltnW lt_t) /=.
  by rewrite -ltnS prednK ?(leq_trans _ lt_t).
rewrite /changes (nth_map (0, 0)) // nth_zip_cond lt_z /=.
by rewrite nth_behead.
Qed.

Lemma positive_pairs xs :
  all (fun x => 0 < x) xs ->
  all (fun pq : R * R => 0 < pq.1) (zip xs (behead xs)).
Proof.
elim: xs => [|x [|y xs] IHxs] //= /andP [x0 pos].
by rewrite x0 /=; exact: IHxs.
Qed.

Lemma pct_cell_positive (pq : R * R) :
  0 < pq.1 -> pct_cell pq = Value (Some ((pq.2 - pq.1) / pq.1)).
Proof.
case: pq => prev cur /= prev0; rewrite gt_eqF //.
by rewrite mulrBl divff // gt_eqF.
Qed.

Lemma pct_change_col_positive xs :
  all (fun x => 0 < x) xs ->
  pct_change_col xs = Value (changes_after_nan xs).
Proof.
case: xs => [|x xs] // pos.
rewrite /pct_change_col (traverse_values pct_cell_positive) /=.
  exact: (positive_pairs pos).
by rewrite /changes -map_comp.
Qed.

Lemma pct_change_positive prices :
  price_table prices ->
  pct_change prices
  = Value (mkFrame (index prices)
             [seq (c.1, changes_after_nan c.2) | c <- columns prices]).
Proof.
case/andP=> _ pos.
rewrite /pct_change (traverse_values pct_change_col_positive) /=.
  by rewrite /unzip2 all_map.
by rewrite zip_labels_map.
Qed.

(** *** [dropna(how="all")] after [pct_change] *)

Lemma size_changes_after_nan xs : size (changes_after_nan xs) = size xs.
Proof. by case: xs => [|x xs] //=; rewrite size_map size_changes. Qed.

Lemma behead_changes_after_nan xs :
  behead (changes_after_nan xs) = map Some (changes xs).
Proof. by case: xs. Qed.

(** The cell of row [i] is a number in every row but the leading one. *)
Lemma isSome_changes_after_nan xs i :
  isSome (nth None (changes_after_nan xs) i) = (0 < i < size xs)%N.
Proof.
case: xs => [|x xs]; first by rewrite /= nth_nil ltn0 andbF.
case: i => [|i] //=; rewrite ltnS.
case: (ltnP i (size xs)) => [lt_i | ge_i].
  by rewrite (nth_map 0) // size_changes.
by rewrite nth_default // size_map size_changes.
Qed.

Lemma map_pos_iota k m : [seq (0 < i)%N | i <- iota k.+1 m] = nseq m true.
Proof. by elim: m k => [|m IHm] k //=; rewrite IHm. Qed.

(** Keeping every row but the leading one. *)
Lemma mask_after_first C (s : seq C) :
  mask [seq (0 < i)%N | i <- iota 0 (size s)] s = behead s.
Proof. by case: s => [|y s] //=; rewrite map_pos_iota mask_true. Qed.

Lemma has_inner_row (cols : seq (A * seq R)) (i n : nat) :
  all (fun c => size c.2 == n) cols -> (i < n)%N ->
  has (fun c => (0 < i < size c.2)%N) cols
  = (if cols is [::] then false else (0 < i)%N).
Proof.
move=> wf lt_i; case: cols wf => [|c cols] //= /andP [/eqP -> _].
rewrite lt_i andbT; case: (0 < i)%N => //=.
by elim: cols.
Qed.

(** The rows [dropna] keeps: none without a column, all but the leading
    one otherwise. *)
Lemma kept_rows prices :
  well_formed prices ->
  let pct := mkFrame (index prices)
               [seq (c.1, changes_after_nan c.2) | c <- columns prices] in
  [seq row_has_value pct i | i <- iota 0 (n_rows pct)]
  = if columns prices is [::] then nseq (n_rows prices) false
    else [seq (0 < i)%N | i <- iota 0 (n_rows prices)].
Proof.
move=> wf pct; rewrite /n_rows /=.
have -> : [seq row_has_value pct i | i <- iota 0 (size (index prices))]
        = [seq (if columns prices is [::] then false else (0 < i)%N)
          | i <- iota 0 (size (index prices))].
  apply/eq_in_map => i; rewrite mem_iota add0n /= => lt_i.
  rewrite /row_has_value /= has_map -(has_inner_row wf lt_i).
  by apply: eq_has => c /=; rewrite isSome_changes_after_nan.
case: (columns prices) => [|c cs] //.
rewrite -[in RHS](size_iota 0 (size (index prices))).
by elim: (iota _ _) => //= _ s ->.
Qed.

Lemma dropna_changes prices :
  well_formed prices ->
  dropna_all (mkFrame (index prices)
                [seq (c.1, changes_after_nan c.2) | c <- columns prices])
  = returns_spec prices.
Proof.
move=> wf; rewrite /dropna_all kept_rows // /returns_spec /=.
case cols: (columns prices) => [|c cs]; first by rewrite mask_false.
rewrite mask_after_first -cols; congr mkFrame.
rewrite -map_comp; apply: eq_map_all wf => col /= /eqP sz_col.
by rewrite /n_rows -sz_col -size_changes_after_nan mask_after_first
           behead_changes_after_nan.
Qed.

Lemma returns_from_prices_positive prices :
  price_table prices ->
  returns_from_prices prices = Value (returns_spec prices).
Proof.
move=> pt; rewrite /returns_from_prices pct_change_positive //=.
by case/andP: pt => wf _; rewrite dropna_changes.
Qed.

Lemma column_map C D (f : seq C -> seq D) (cols : seq (A * seq C)) j
    (ix : seq T) :
  (j < size cols)%N ->
  column (mkFrame ix [seq (c.1, f c.2) | c <- cols]) j
  = f (column (mkFrame ix cols) j).
Proof.
rewrite /column /= /unzip2 -map_comp.
by case: cols => [|c0 cols] // lt_j; rewrite !(nth_map c0).
Qed.

Lemma column_nth C (df : DataFrame T A C) (c0 : A * seq C) j :
  (j < size (columns df))%N -> column df j = (nth c0 (columns df) j).2.
Proof. by move=> lt_j; rewrite /column /unzip2 (nth_map c0). Qed.

Lemma column_all C (p : pred (seq C)) (df : DataFrame T A C) j :
  all (fun c => p c.2) (columns df) ->
  (j < size (columns df))%N -> p (column df j).
Proof.
rewrite /column /unzip2.
elim: (columns df) j => [|c cs IHcs] [|j] //= /andP [pc pcs] // lt_j.
exact: IHcs.
Qed.

Lemma size_column C (df : DataFrame T A C) j :
  well_formed df -> (j < size (columns df))%N ->
  size (column df j) = n_rows df.
Proof.
move=> wf lt_j; apply/eqP.
exact: (@column_all _ (fun s => size s == n_rows df) _ _ wf).
Qed.

Lemma labels_returns_spec prices :
  labels (returns_spec prices) = labels prices.
Proof. by rewrite /labels /returns_spec /unzip1 /= -map_comp. Qed.

Lemma column_returns_spec prices j :
  (j < size (columns prices))%N ->
  column (returns_spec prices) j = map Some (changes (column prices j)).
Proof.
move=> lt_j; rewrite /returns_spec.
by rewrite (column_map (fun xs => map Some (changes xs))).
Qed.

Lemma changes_cons (x y : R) xs :
  changes (x :: y :: xs) = (y - x) / x :: changes (y :: xs).
Proof. by []. Qed.

(** A column of equal prices has changes 0. *)
Lemma changes_constant xs (h : R) :
  all (fun x => x == h) xs -> all (fun y => y == 0) (changes xs).
Proof.
elim: xs => [|x [|y xs] IHxs] // /andP [/eqP ex /andP [/eqP ey eq_h]].
rewrite changes_cons /= ex {1}ey subrr mul0r eqxx /=.
by apply: IHxs; rewrite /= ey eqxx.
Qed.

Lemma all_zero_returns_spec prices :
  constant_prices prices -> all_zero (returns_spec prices).
Proof.
rewrite /constant_prices /all_zero /returns_spec /= all_map.
apply: sub_all => c /= /changes_constant.
by rewrite all_map.
Qed.

(** C6.  On a price table (any number of rows, so in particular two or
    more) [returns_from_prices] returns a table with the columns of the
    input in their order and the rows of the input after the leading one in
    their order (with no column at all, every row is entirely undefined
    and none is left); the cell of an asset at the row of time [t] is
    [(p_t - p_{t-1}) / p_{t-1}]; and when every asset has a constant price,
    every cell is zero. *)
Theorem returns_from_prices_changes prices :
  price_table prices ->
  exists returns,
    [/\ returns_from_prices prices = Value returns,
        labels returns = labels prices,
        index returns
        = (if columns prices is [::] then [::] else behead (index prices)),
        forall j t, (j < size (columns prices))%N ->
          size (column returns j) = (n_rows prices).-1 /\
          ((t.+1 < n_rows prices)%N ->
           nth None (column returns j) t
           = Some ((nth 0 (column prices j) t.+1 - nth 0 (column prices j) t)
                   / nth 0 (column prices j) t))
      & constant_prices prices -> all_zero returns].
Proof.
move=> pt; have /andP [wf pos] := pt.
exists (returns_spec prices); split=> //.
- exact: returns_from_prices_positive.
- exact: labels_returns_spec.
- move=> j t lt_j; rewrite column_returns_spec // size_map size_changes.
  rewrite size_column //; split=> // lt_t.
  rewrite (nth_map 0) ?nth_changes ?size_changes ?size_column //.
  by rewrite -ltnS prednK // (leq_trans _ lt_t).
- exact: all_zero_returns_spec.
Qed.

(** *** [prices_from_returns] after [returns_from_prices] *)

(** The running product of [1 + change] along positive prices telescopes:
    started at [acc] on the changes of [x1 :: rest], it is [acc * x / x1]
    at the row of the price [x]. *)
Lemma cumprod_changes (acc x1 : R) (rest : seq R) :
  all (fun x => 0 < x) (x1 :: rest) ->
  cumprod_from acc [seq Some (1 + r) | r <- changes (x1 :: rest)]
  = [seq Some (acc * (x / x1)) | x <- rest].
Proof.
elim: rest acc x1 => [|x2 rest IHrest] acc x1 // /andP [x1_gt0 pos].
have x1_neq0 : x1 != 0 by rewrite gt_eqF.
have /andP [x2_gt0 _] := pos.
rewrite changes_cons /=.
have -> : 1 + (x2 - x1) / x1 = x2 / x1.
  by rewrite mulrBl divff // addrC subrK.
rewrite IHrest //; congr (_ :: _).
apply: eq_map => x; congr Some.
rewrite -mulrA; congr (_ * _).
by rewrite [x / x2]mulrC mulrA [x2 / x1]mulrC mulfK ?gt_eqF // mulrC.
Qed.

Lemma growth_column xs :
  (1 < size xs)%N -> all (fun x => 0 < x) xs ->
  cumprod_col
    (set_first (Some 1)
       [seq omap (fun r => 1 + r) y | y <- map Some (changes xs)])
  = Some 1 :: rebased (nth 0 xs 1) (behead (behead xs)).
Proof.
case: xs => [|x0 [|x1 rest]] // _ /andP [_ pos].
rewrite -map_comp (@eq_map _ _ _ (fun r => Some (1 + r))) //.
rewrite changes_cons /cumprod_col /= mulr1 cumprod_changes //.
by congr (_ :: _); apply: eq_map => x; rewrite mul1r.
Qed.

Lemma prices_from_returns_spec prices :
  price_table prices -> (1 < n_rows prices)%N ->
  (0 < size (columns prices))%N ->
  prices_from_returns (returns_spec prices)
  = Value (growth_from_second prices).
Proof.
case: prices => ix cols; rewrite /price_table /well_formed /n_rows /=.
move=> /andP [wf pos] rows ncols.
rewrite /prices_from_returns /iloc0_assign /returns_spec /growth_from_second.
rewrite /map_columns /=.
have -> : (if cols is [::] then [::] else behead ix) = behead ix.
  by case: cols ncols {wf pos}.
case: ix wf rows => [|t0 [|t1 ts]] //= wf _.
congr (Value (mkFrame _ _)); rewrite -!map_comp.
apply: eq_map_all (all_both wf pos) => col /= /andP [/eqP sz_col pos_col].
by rewrite growth_column // sz_col.
Qed.

Lemma column_growth_from_second prices j :
  (j < size (columns prices))%N ->
  column (growth_from_second prices) j
  = Some 1 :: rebased (nth 0 (column prices j) 1)
                (behead (behead (column prices j))).
Proof.
move=> lt_j; rewrite /growth_from_second.
by rewrite (column_map
  (fun xs => Some 1 :: rebased (nth 0 xs 1) (behead (behead xs)))).
Qed.

(** C7, amended.  On a price table with at least two rows and at least
    one asset, [prices_from_returns (returns_from_prices P)] has the rows
    of [P] after the leading one and the columns of [P]; its first row is 1
    for every asset, and each later cell is the price of [P] at that row
    divided by the second price of the asset (the price at the first row
    kept), not by the first: the change from the first price to the
    second is overwritten by [ret.iloc[0] = 1]. *)
Theorem prices_from_returns_round_trip prices :
  price_table prices -> (1 < n_rows prices)%N ->
  (0 < size (columns prices))%N ->
  exists out,
    [/\ obind (returns_from_prices prices) (@prices_from_returns R T A)
          = Value out,
        index out = behead (index prices) /\ labels out = labels prices,
        forall j, (j < size (columns prices))%N ->
          nth None (column out j) 0 = Some 1
      & forall j t, (j < size (columns prices))%N ->
          (t.+2 < n_rows prices)%N ->
          nth None (column out j) t.+1
          = Some (nth 0 (column prices j) t.+2 / nth 0 (column prices j) 1)].
Proof.
move=> pt rows ncols; have /andP [wf _] := pt.
exists (growth_from_second prices); split.
- by rewrite returns_from_prices_positive //= prices_from_returns_spec.
- by rewrite /growth_from_second /labels /unzip1 /= -map_comp.
- by move=> j lt_j; rewrite column_growth_from_second.
- move=> j t lt_j lt_t; rewrite column_growth_from_second //=.
  rewrite (nth_map 0) ?size_behead ?size_column ?nth_behead //.
  by case: (n_rows prices) lt_t => [|[|n]].
Qed.

(** *** [mean_historical_return] *)

Lemma observed_numbers (ys : seq R) : observed (map Some ys) = ys.
Proof. by rewrite /observed; elim: ys => [|y ys IHys] //=; rewrite IHys. Qed.

Lemma mean_col_numbers (ys : seq R) :
  mean_col (map Some ys) = arithmetic_mean ys.
Proof.
rewrite /mean_col observed_numbers /arithmetic_mean.
by case: ys => [|y ys] //; rewrite foldrE.
Qed.

Lemma mean_historical_return_positive prices (frequency : int) :
  price_table prices ->
  mean_historical_return prices frequency
  = Value [seq (c.1, omap (fun m => m * frequency%:~R)
                       (arithmetic_mean (changes c.2)))
          | c <- columns prices].
Proof.
move=> pt; rewrite /mean_historical_return returns_from_prices_positive //=.
rewrite /scale_series /frame_mean /returns_spec /= -!map_comp.
by congr Value; apply: eq_map => c /=; rewrite mean_col_numbers.
Qed.

(** In exact arithmetic the table [[100, 110]] at frequency 1 has the mean
    return 1/10. *)
Lemma mean_two_rows :
  mean_historical_return TableExample.two_rows 1
  = Value [:: (0%N, Some (10%:R^-1 : rat))].
Proof.
have : if mean_historical_return TableExample.two_rows 1 is Value s
       then s == [:: (0%N, Some (10%:R^-1 : rat))] else false.
  by vm_compute.
by case: (mean_historical_return _ _) => // s /eqP ->.
Qed.

(** C8.  On a price table [mean_historical_return] returns one cell per
    asset, in the order of the columns of the input: the arithmetic mean of
    the asset's column of the return table, multiplied by [frequency]
    (NaN when that column is empty).  On the one-asset table
    [[100, 110]] with [frequency = 1] the cell is [110 / 100 - 1] as
    binary64 computes it, the number 0.10000000000000009. *)
Theorem mean_historical_return_mean prices (frequency : int) :
  price_table prices ->
  exists s : Series R A,
    [/\ mean_historical_return prices frequency = Value s,
        unzip1 s = labels prices,
        s = [seq (c.1, omap (fun m => m * frequency%:~R)
                         (arithmetic_mean (changes c.2)))
            | c <- columns prices]
      & Binary64.mean_historical_return Binary64.two_rows 1%float
        = [:: (0%N, 0.10000000000000009%float)]].
Proof.
move=> pt; eexists; split; first exact: mean_historical_return_positive.
- by rewrite /labels /unzip1 -map_comp.
- by [].
- by vm_compute.
Qed.

(** *** [ema_historical_return] *)

Lemma decayed_weightS (q : R) n :
  decayed_weight q n.+1 = q * decayed_weight q n + 1.
Proof.
rewrite /decayed_weight big_ord_recr /= subnn expr0 mulr_sumr.
by congr (_ + _); apply: eq_bigr => i _; rewrite subSn // exprS.
Qed.

Lemma decayed_sum_rcons (q : R) (ys : seq R) (y : R) :
  decayed_sum q (rcons ys y) = q * decayed_sum q ys + y.
Proof.
rewrite /decayed_sum size_rcons big_ord_recr /= subnn expr0 mul1r.
rewrite nth_rcons ltnn eqxx mulr_sumr; congr (_ + _).
apply: eq_bigr => i _.
by rewrite subSn // exprS nth_rcons ltn_ord mulrA.
Qed.

Lemma decayed_weight_ge0 (q : R) n : 0 <= q -> 0 <= decayed_weight q n.
Proof.
move=> q0; elim: n => [|n IHn]; first by rewrite /decayed_weight big_ord0.
by rewrite decayed_weightS addr_ge0 // mulr_ge0.
Qed.

Lemma decayed_weight_gt0 (q : R) n : 0 <= q -> 0 < decayed_weight q n.+1.
Proof.
move=> q0; rewrite decayed_weightS.
by rewrite (lt_le_trans ltr01) // lerDr mulr_ge0 // decayed_weight_ge0.
Qed.

(** The loop of [ewma] on a column of numbers keeps the weighted average
    of the numbers met so far and the sum of their weights. *)
Lemma ewma_loop (alpha y0 : R) (ys : seq R) :
  0 <= 1 - alpha ->
  foldl (ewma_step alpha) (Some y0, 1) (map Some ys)
  = (Some (ewma_weighted (1 - alpha) (y0 :: ys)),
     decayed_weight (1 - alpha) (size ys).+1).
Proof.
move=> q0; elim/last_ind: ys => [|ys y IHys] /=.
  rewrite /ewma_weighted /decayed_sum /decayed_weight /= !big_ord_recl.
  by rewrite !big_ord0 subnn expr0 mul1r !addr0 divr1.
rewrite map_rcons foldl_rcons IHys size_rcons /ewma_step.
set q := 1 - alpha in q0 *.
have W0 : decayed_weight q (size ys).+1 != 0.
  by rewrite gt_eqF // decayed_weight_gt0.
have W1 : decayed_weight q (size ys).+2 != 0.
  by rewrite gt_eqF // decayed_weight_gt0.
have next : ewma_weighted q (y0 :: rcons ys y)
          = (decayed_weight q (size ys).+1 * q * ewma_weighted q (y0 :: ys)
             + 1 * y) / (decayed_weight q (size ys).+1 * q + 1).
  rewrite /ewma_weighted -rcons_cons decayed_sum_rcons /= size_rcons.
  rewrite [in LHS]decayed_weightS [q * decayed_weight _ _]mulrC mul1r.
  congr ((_ + _) / _).
  by rewrite [_ * q]mulrC -mulrA [_ * (_ / _)]mulrC divfK.
rewrite [in RHS]decayed_weightS [q * _]mulrC; congr (_, _).
case: eqP => [eq_y | _]; last by rewrite next.
have W1' : decayed_weight q (size ys).+1 * q + 1 != 0.
  by rewrite [_ * q]mulrC -decayed_weightS.
congr Some; rewrite next -eq_y.
set avg := ewma_weighted q (y0 :: ys); set W := decayed_weight q _.
have -> : W * q * avg + 1 * avg = avg * (W * q + 1).
  by rewrite mul1r mulrDr mulr1 [avg * _]mulrC.
by rewrite mulfK.
Qed.

Lemma last_scanl U V (f : U -> V -> U) (x : U) (s : seq V) :
  last x (scanl f x s) = foldl f x s.
Proof. by elim: s x => [|y s IHs] x //=; rewrite IHs. Qed.

(** The final value of the smoothed series of a column of numbers. *)
Lemma ewma_col_last (alpha y0 : R) (ys : seq R) :
  0 <= 1 - alpha ->
  last None (ewma_col alpha (map Some (y0 :: ys)))
  = Some (ewma_weighted (1 - alpha) (y0 :: ys)).
Proof.
move=> q0; rewrite /ewma_col /=.
rewrite (last_map fst _ (Some y0, 1)) last_scanl.
by rewrite ewma_loop.
Qed.

Lemma two_neq0 : (2%:R : R) != 0.
Proof. by rewrite pnatr_eq0. Qed.

Lemma smoothing_factor_span (span : int) :
  smoothing_factor ((span%:~R - 1) / 2%:R) = alpha_of_span R span.
Proof.
rewrite /smoothing_factor /alpha_of_span.
rewrite -[X in X + _ / _](divff two_neq0) -mulrDl div1r invf_div.
congr (_ / _); rewrite addrCA; congr (_ + _).
by rewrite -[2%:R]/(1 + 1) addrK.
Qed.

Lemma alpha_of_span_le1 (span : int) :
  (1 <= span)%R -> 0 <= 1 - alpha_of_span R span.
Proof.
move=> span1; rewrite subr_ge0 /alpha_of_span.
have span1R : 1 <= span%:~R :> R by rewrite -[1]/(1%:~R) ler_int.
have pos : 0 < span%:~R + 1 :> R.
  by rewrite (lt_le_trans ltr01) // lerDr (le_trans ler01 span1R).
by rewrite ler_pdivrMr // mul1r -[2%:R]/(1 + 1) lerD2r.
Qed.

Lemma ema_historical_return_positive prices (frequency span : int) :
  price_table prices -> (1 < n_rows prices)%N ->
  (0 < size (columns prices))%N -> (1 <= span)%R ->
  ema_historical_return prices frequency span
  = Value [seq (c.1, Some (ewma_weighted (1 - alpha_of_span R span)
                             (changes c.2) * frequency%:~R))
          | c <- columns prices].
Proof.
move=> pt rows ncols span1.
rewrite /ema_historical_return /get_center_of_mass ltNge span1 /=.
rewrite returns_from_prices_positive //= smoothing_factor_span.
case: prices pt rows ncols => ix cols.
rewrite /price_table /well_formed /n_rows /= => /andP [wf _] rows ncols.
rewrite /iloc_last /returns_spec /map_columns /=.
have -> : (if cols is [::] then [::] else behead ix) = behead ix.
  by case: cols ncols {wf}.
case: ix wf rows => [|t0 [|t1 ts]] //= wf _.
rewrite /scale_series -!map_comp; congr Value.
apply: eq_map_all wf => col /= /eqP sz_col.
have: size (changes col.2) = (size ts).+1 by rewrite size_changes sz_col.
case: (changes col.2) => [|y0 ys] // _.
by rewrite ewma_col_last //; exact: alpha_of_span_le1.
Qed.

Lemma ema_historical_return_last prices (frequency span : int) :
  price_table prices -> (1 < n_rows prices)%N ->
  (0 < size (columns prices))%N -> (1 <= span)%R ->
  ema_historical_return prices frequency span
  = Value (scale_series
             [seq (c.1, last None (ewma_col (alpha_of_span R span) c.2))
             | c <- columns (returns_spec prices)]
             frequency).
Proof.
move=> pt rows ncols span1.
rewrite /ema_historical_return /get_center_of_mass ltNge span1 /=.
rewrite returns_from_prices_positive //= smoothing_factor_span.
case: prices rows ncols {pt} => ix cols; rewrite /n_rows /= => rows ncols.
rewrite /iloc_last /returns_spec /map_columns /= -!map_comp.
have -> : (if cols is [::] then [::] else behead ix) = behead ix.
  by case: cols ncols.
by case: ix rows => [|t0 [|t1 ts]].
Qed.

(** C9, amended.  On a price table with at least two rows and at least
    one asset, and for an integer [span >= 1], [ema_historical_return]
    returns one cell per asset, in the order of the columns: the last
    value of the smoothed series of the asset's return column, multiplied
    by [frequency].  That value is the average of all the returns of the
    column with weights decaying by [1 - alpha] per step into the past,
    [alpha = 2 / (span + 1)]. *)
Theorem ema_historical_return_final prices (frequency span : int) :
  price_table prices -> (1 < n_rows prices)%N ->
  (0 < size (columns prices))%N -> (1 <= span)%R ->
  exists s : Series R A,
    [/\ ema_historical_return prices frequency span = Value s,
        unzip1 s = labels prices,
        exists2 returns,
          returns_from_prices prices = Value returns
          & s = scale_series
                  [seq (c.1, last None (ewma_col (alpha_of_span R span) c.2))
                  | c <- columns returns]
                  frequency
      & s = [seq (c.1, Some (ewma_weighted (1 - alpha_of_span R span)
                               (changes c.2) * frequency%:~R))
            | c <- columns prices]].
Proof.
move=> pt rows ncols span1.
have closed := ema_historical_return_positive frequency pt rows ncols span1.
have final := ema_historical_return_last frequency pt rows ncols span1.
eexists; split; first exact: closed.
- by rewrite /labels /unzip1 -map_comp.
- exists (returns_spec prices); first exact: returns_from_prices_positive.
  by move: final; rewrite closed => -[].
- by [].
Qed.

End TableFacts.

(** ** The posterior as [tau] goes to 0 *)

Section PriorLimit.

Import BL.

Variable R : realFieldType.
Variable L : Type.
Variable n : nat.

Implicit Types (Pi : Series R L n) (Sigma : 'M[R]_n) (Q : 'cV[R]_n).

Lemma half_between (delta : R) : 0 < delta -> 0 < delta / 2%:R < delta.
Proof.
move=> delta0; rewrite divr_gt0 //= ltr_pdivrMr //.
by rewrite mulr_natr mulr2n ltrDl.
Qed.

(** C3, amended.  With [P] and [Omega] left out the outcome does not
    depend on [tau]: for every [tau <> 0] it is the outcome at [tau = 1].
    So the posterior stays where it is as [tau] goes to 0, and it
    approaches [Pi] only if it is [Pi] already. *)
Theorem black_litterman_return_tau_independent Pi Sigma Q :
  (forall tau : R, tau != 0 ->
     black_litterman_return Pi Sigma Q None (PNone R n) tau
     = black_litterman_return Pi Sigma Q None (PNone R n) 1)
  /\ (approaches_prior Pi Sigma Q ->
      exists2 x,
        black_litterman_return Pi Sigma Q None (PNone R n) 1 = Value x
        & values x = values Pi).
Proof.
split=> [tau tau0 | near]; first exact: defaults_tau_free.
have at_one eps : 0 < eps ->
    exists2 x,
      black_litterman_return Pi Sigma Q None (PNone R n) 1 = Value x
      & forall i, `|values x i 0 - values Pi i 0| < eps.
  move=> /near [delta delta0 /(_ (delta / 2%:R) (half_between delta0)) [x]].
  have half_neq0 : delta / 2%:R != 0 by rewrite gt_eqF // divr_gt0.
  by rewrite (defaults_tau_free _ _ _ half_neq0) => at_x near_x; exists x.
have [x at_x _] := at_one 1 ltr01.
exists x => //; apply/matrixP => i j; rewrite [j]ord1.
apply/eqP; rewrite -subr_eq0 -normr_eq0; apply/negPn/negP => far.
have gap : 0 < `|values x i 0 - values Pi i 0| by rewrite lt_def far normr_ge0.
have [y] := at_one _ gap.
by rewrite at_x => -[<-] /(_ i); rewrite ltxx.
Qed.

End PriorLimit.

(** ** Further facts about the posterior *)

Section PosteriorAlgebra.

Import BL.

Variable F : fieldType.
Variable L : Type.

Section Views.

Variables n k : nat.
Implicit Types (Pi : Series F L n) (Sigma : 'M[F]_n) (Q : 'cV[F]_k).
Implicit Types (Omega : 'M[F]_k) (P : 'M[F]_(k, n)) (tau : F).

(** X1.  Views that agree with the prior ([P Pi = Q]) leave it as it is:
    the call returns [Pi], for any view matrix [P] and any [Omega] with a
    nonzero diagonal, when [tau * Sigma] and [A] are invertible. *)
Theorem black_litterman_return_consistent_views Pi Sigma Q Omega P tau :
  P *m values Pi = Q ->
  (forall i, Omega i i != 0) ->
  tau *: Sigma \in unitmx ->
  A_spec tau Sigma P Omega \in unitmx ->
  black_litterman_return Pi Sigma Q (Some Omega) (PGiven P) tau = Value Pi.
Proof.
move=> <- nz uS uA.
rewrite black_litterman_return_solve //= /linalg_solve uA /=.
have -> : b_spec tau Sigma P Omega (values Pi) (P *m values Pi)
        = A_spec tau Sigma P Omega *m values Pi.
  by rewrite /b_spec /A_spec mulmxDl !mulmxA.
by rewrite mulKmx // Series_eta.
Qed.

(** X3.  The posterior is linear in the pair (prior, views): when the
    calls on [(v1, Q1)] and on [(v2, Q2)] return [x1] and [x2], the call on
    [(a v1 + b v2, a Q1 + b Q2)], all other arguments the same, returns
    [a x1 + b x2]. *)
Theorem black_litterman_return_linear (idx : n.-tuple L) (v1 v2 : 'cV[F]_n)
    (Q1 Q2 : 'cV[F]_k) (a b : F) Sigma (oOmega : option 'M[F]_k)
    (vP : view_arg F n k) tau (x1 x2 : Series F L n) :
  black_litterman_return (mkSeries idx v1) Sigma Q1 oOmega vP tau
    = Value x1 ->
  black_litterman_return (mkSeries idx v2) Sigma Q2 oOmega vP tau
    = Value x2 ->
  black_litterman_return (mkSeries idx (a *: v1 + b *: v2)) Sigma
    (a *: Q1 + b *: Q2) oOmega vP tau
  = Value (mkSeries idx (a *: values x1 + b *: values x2)).
Proof.
rewrite /black_litterman_return /linalg_inv.
case: ifP => // uS; case: (omap _ _) => [PO|] //.
rewrite /linalg_solve; case: ifP => //= uA [<-] [<-] /=.
congr (Value (mkSeries _ _)).
by rewrite !mulmxDr -!scalemxAr !scalerDr !addrA [X in X + _ = _]addrAC.
Qed.

End Views.

(** X2.  Without any view ([P] has no row, [Q] no entry) the call
    returns the prior, whenever [tau * Sigma] is invertible. *)
Theorem black_litterman_return_no_views (n : nat) (Pi : Series F L n)
    (Sigma : 'M[F]_n) (Q : 'cV[F]_0) (oOmega : option 'M[F]_0)
    (P : 'M[F]_(0, n)) (tau : F) :
  tau *: Sigma \in unitmx ->
  black_litterman_return Pi Sigma Q oOmega (PGiven P) tau = Value Pi.
Proof.
move=> uS; rewrite black_litterman_return_solve //; first by case.
rewrite /= /A_spec /b_spec /linalg_solve [P]flatmx0 trmx0 !mul0mx !addr0.
by rewrite unitmx_inv uS mulKmx ?unitmx_inv //= Series_eta.
Qed.

(** The diagonal of [c * Omega]. *)
Lemma diag_of_scale k (c : F) (Omega : 'M[F]_k) :
  diag_of (c *: Omega) = c *: diag_of Omega.
Proof. by apply/rowP => i; rewrite !mxE. Qed.

(** Scaling [Sigma] and a given [Omega] by the same [c <> 0] scales [A]
    and [b] by [1 / c]: the outcome is the same. *)
Lemma scale_Sigma_Omega n k (Pi : Series F L n) (Sigma : 'M[F]_n)
    (Q : 'cV[F]_k) (Omega : 'M[F]_k) (vP : view_arg F n k) (tau c : F) :
  c != 0 ->
  black_litterman_return Pi (c *: Sigma) Q (Some (c *: Omega)) vP tau
  = black_litterman_return Pi Sigma Q (Some Omega) vP tau.
Proof.
move=> c0; rewrite /black_litterman_return /= diag_of_scale.
rewrite reciprocal_scale // /linalg_inv scalerA mulrC -scalerA.
rewrite unitmxZ ?unitfE //.
case uS: (tau *: Sigma \in unitmx) => //.
have uS' : c *: (tau *: Sigma) \in unitmx by rewrite unitmxZ ?unitfE.
rewrite (invmxZ uS').
case: (reciprocal (diag_of Omega)) => [r|] //=.
have dE : diag_from (c^-1 *: r) = c^-1 *: diag_from r.
  by rewrite /diag_from linearZ.
have ci0 : c^-1 != 0 by rewrite invr_eq0.
rewrite -[in RHS](linalg_solve_scale _ _ ci0) dE.
by rewrite !scalerDr -!scalemxAl -!scalemxAr -!scalemxAl.
Qed.

(** With [Omega] given, [tau] enters only through [tau * Sigma]. *)
Lemma tau_into_Sigma n k (Pi : Series F L n) (Sigma : 'M[F]_n)
    (Q : 'cV[F]_k) (Omega : 'M[F]_k) (vP : view_arg F n k) (tau c : F) :
  black_litterman_return Pi Sigma Q (Some Omega) vP (c * tau)
  = black_litterman_return Pi (c *: Sigma) Q (Some Omega) vP tau.
Proof. by rewrite /black_litterman_return /= scalerA mulrC. Qed.

Lemma Omega_default_scale n k (tau : F) (P : 'M[F]_(k, n))
    (Sigma : 'M[F]_n) :
  Omega_default_spec tau P Sigma = tau *: Omega_default_spec 1 P Sigma.
Proof.
apply/matrixP => i j; rewrite /Omega_default_spec !mxE mul1r.
by case: (i == j); rewrite ?mulr0.
Qed.

Lemma Omega_default_scale_Sigma n k (tau c : F) (P : 'M[F]_(k, n))
    (Sigma : 'M[F]_n) :
  Omega_default_spec tau P (c *: Sigma)
  = c *: Omega_default_spec tau P Sigma.
Proof.
rewrite /Omega_default_spec -scalemxAr -scalemxAl.
move: (P *m Sigma *m P^T) => M.
apply/matrixP => i j; rewrite !mxE mulrCA.
by case: (i == j); rewrite ?mulr0.
Qed.

Lemma absent_Omega n k (Pi : Series F L n) (Sigma : 'M[F]_n)
    (Q : 'cV[F]_k) (vP : view_arg F n k) (tau : F) :
  black_litterman_return Pi Sigma Q None vP tau
  = black_litterman_return Pi Sigma Q
      (Some (Omega_default_spec tau (default_P vP) Sigma)) vP tau.
Proof. by rewrite /black_litterman_return -default_Omega_None. Qed.

(** X4.  Only the size of [Omega] relative to [tau * Sigma] matters:
    for [c <> 0], scaling [Sigma] and [Omega] by [c], or [tau] and [Omega]
    by [c], does not change the outcome. *)
Theorem black_litterman_return_scale n k (Pi : Series F L n)
    (Sigma : 'M[F]_n) (Q : 'cV[F]_k) (Omega : 'M[F]_k)
    (vP : view_arg F n k) (tau c : F) :
  c != 0 ->
  black_litterman_return Pi (c *: Sigma) Q (Some (c *: Omega)) vP tau
  = black_litterman_return Pi Sigma Q (Some Omega) vP tau
  /\ black_litterman_return Pi Sigma Q (Some (c *: Omega)) vP (c * tau)
     = black_litterman_return Pi Sigma Q (Some Omega) vP tau.
Proof.
by move=> c0; rewrite tau_into_Sigma scale_Sigma_Omega.
Qed.

(** X5.  With [Omega] left out, whatever the views [P]: the outcome
    depends neither on [tau <> 0] nor on the scale of [Sigma]. *)
Theorem black_litterman_return_absent_Omega_scale n k (Pi : Series F L n)
    (Sigma : 'M[F]_n) (Q : 'cV[F]_k) (vP : view_arg F n k) (tau c : F) :
  tau != 0 -> c != 0 ->
  black_litterman_return Pi Sigma Q None vP tau
  = black_litterman_return Pi Sigma Q None vP 1
  /\ black_litterman_return Pi (c *: Sigma) Q None vP tau
     = black_litterman_return Pi Sigma Q None vP tau.
Proof.
move=> tau0 c0; rewrite !absent_Omega; split.
  rewrite (Omega_default_scale tau).
  set Omega1 := Omega_default_spec 1 _ _.
  transitivity (black_litterman_return Pi Sigma Q (Some (tau *: Omega1)) vP
                  (tau * 1)); first by rewrite mulr1.
  by rewrite tau_into_Sigma scale_Sigma_Omega.
by rewrite Omega_default_scale_Sigma scale_Sigma_Omega.
Qed.

(** X6.  For at least one asset, [tau = 0] or a covariance of zeros makes
    the call raise [LinAlgError], whatever the other arguments (a zero
    on the diagonal of [Omega] included: its reciprocal is taken first,
    and does not raise). *)
Theorem black_litterman_return_degenerate n k (Pi : Series F L n.+1)
    (Sigma : 'M[F]_n.+1) (Q : 'cV[F]_k) (oOmega : option 'M[F]_k)
    (vP : view_arg F n.+1 k) (tau : F) :
  black_litterman_return Pi Sigma Q oOmega vP 0 = Raise LinAlgError
  /\ black_litterman_return Pi 0 Q oOmega vP tau = Raise LinAlgError.
Proof.
by rewrite /black_litterman_return /linalg_inv scale0r scaler0 unitmxE det0
           unitr0.
Qed.

Section Uncorrelated.

Variable n : nat.
Implicit Types (Pi : Series F L n) (d : 'rV[F]_n) (Q : 'cV[F]_n).

Lemma diag_mx_inv d :
  (forall i, d 0 i != 0) ->
  diag_mx d \in unitmx /\ invmx (diag_mx d) = diag_mx (map_mx GRing.inv d).
Proof.
move=> nz.
have one : diag_mx d *m diag_mx (map_mx GRing.inv d) = 1%:M.
  rewrite mulmx_diag -diag_const_mx; congr diag_mx.
  by apply/rowP => i; rewrite !mxE divff.
have [ud _] := mulmx1_unit one; split=> //.
by rewrite -[RHS](mulKmx ud) one mulmx1.
Qed.

Lemma Omega_inv_spec_diag d :
  (forall i, d 0 i != 0) ->
  Omega_inv_spec (default_Omega None 1 (eye F n) (diag_mx d))
  = invmx (diag_mx d).
Proof.
move=> nz; have [_ ->] := diag_mx_inv nz.
rewrite default_Omega_None /eye /Omega_default_spec trmx1 mulmx1 mul1mx.
rewrite scale1r; apply/matrixP => i j; rewrite !mxE eqxx mulr1n.
by case: eqP => [->|_]; rewrite ?mulr1n ?mulr0n.
Qed.

(** X7.  With [P] and [Omega] left out and uncorrelated assets ([Sigma]
    diagonal with nonzero variances), the posterior is the midpoint of the
    prior and the views, [(Pi + Q) / 2], for every [tau <> 0]. *)
Theorem black_litterman_return_uncorrelated Pi d Q (tau : F) :
  (forall i, d 0 i != 0) -> tau != 0 -> (2%:R : F) != 0 ->
  black_litterman_return Pi (diag_mx d) Q None (PNone F n) tau
  = Value (mkSeries (index Pi) (2%:R^-1 *: (values Pi + Q))).
Proof.
move=> nz tau0 two0; rewrite defaults_tau_free //.
have [ud _] := diag_mx_inv nz.
have ui : invmx (diag_mx d) \in unitmx by rewrite unitmx_inv.
rewrite black_litterman_return_solve ?scale1r //.
  move=> i; rewrite default_Omega_None /= /eye /Omega_default_spec.
  by rewrite trmx1 mulmx1 mul1mx scale1r !mxE !eqxx mulr1n.
rewrite /A_spec /b_spec /= Omega_inv_spec_diag // /eye trmx1 !mul1mx mulmx1.
rewrite scale1r -mulmxDr /linalg_solve.
have -> : invmx (diag_mx d) + invmx (diag_mx d) = 2%:R *: invmx (diag_mx d).
  by rewrite -[2%:R]/(1 + 1) scalerDl scale1r.
rewrite unitmxZ ?unitfE // ui /= invmxZ ?unitmxZ ?unitfE //.
by rewrite -scalemxAl mulKmx.
Qed.

End Uncorrelated.

End PosteriorAlgebra.

(** ** Further facts about the tables *)

Section TableAlgebra.

Import Frame.

Variable R : numFieldType.
Variables T A : Type.

Implicit Types (prices : DataFrame T A R) (xs : seq R).
Implicit Types (df : DataFrame T A (cell R)).

(** *** Outcomes that cannot occur *)

Lemma traverse_map U V W (f : V -> outcome W) (h : U -> V) (s : seq U) :
  traverse f (map h s) = traverse (f \o h) s.
Proof. by elim: s => [|x s IHs] //=; rewrite IHs. Qed.

Lemma eq_traverse U V (f g : U -> outcome V) (s : seq U) :
  f =1 g -> traverse f s = traverse g s.
Proof. by move=> fg; elim: s => [|x s IHs] //=; rewrite fg IHs. Qed.

Lemma traverse_no_raise U V (f : U -> outcome V) (s : seq U) (e : exn) :
  (forall x, f x <> Raise e) -> traverse f s <> Raise e.
Proof.
move=> fx; elim: s => [|x s IHs] //=.
case fxE: (f x) => [y|e'|] //=.
  by case: (traverse f s) IHs.
by move=> [ee']; apply: (fx x); rewrite fxE ee'.
Qed.

Lemma pct_cell_no_raise (pq : R * R) (e : exn) : pct_cell pq <> Raise e.
Proof.
by case: pq => p q; rewrite /pct_cell; case: ifP => _ //; case: ifP.
Qed.

Lemma pct_change_col_no_raise xs (e : exn) : pct_change_col xs <> Raise e.
Proof.
case: xs => [|x xs] //=; rewrite /omap_outcome.
have := @traverse_no_raise _ _ (@pct_cell R) (zip (x :: xs) xs) e
          (fun pq => @pct_cell_no_raise pq e).
by case: (traverse _ _) => [ys|e'|].
Qed.

Lemma returns_from_prices_no_raise prices (e : exn) :
  returns_from_prices prices <> Raise e.
Proof.
rewrite /returns_from_prices /pct_change /omap_outcome.
have := @traverse_no_raise _ _ (@pct_change_col R)
          (unzip2 (columns prices)) e
          (fun xs => @pct_change_col_no_raise xs e).
case: (traverse _ _) => [ys|e'|] //= keep [ee'].
by apply: keep; rewrite ee'.
Qed.

(** X10.  [returns_from_prices] and [mean_historical_return] raise on no
    table of numbers, whatever its shape and prices (zero and negative
    prices included). *)
Theorem mean_historical_return_no_raise prices (frequency : int) (e : exn) :
  returns_from_prices prices <> Raise e
  /\ mean_historical_return prices frequency <> Raise e.
Proof.
split; first exact: returns_from_prices_no_raise.
rewrite /mean_historical_return.
have := @returns_from_prices_no_raise prices e.
case: (returns_from_prices prices) => [r|e'|] //= keep [ee'].
by apply: keep; rewrite ee'.
Qed.

(** *** Rescaled prices *)

Lemma pct_cell_rescale (c : R) (pq : R * R) :
  c != 0 -> pct_cell (c * pq.1, c * pq.2) = pct_cell pq.
Proof.
case: pq => p q /= c0; rewrite /pct_cell !mulf_eq0 !(negbTE c0) /=.
case: (altP (p =P 0)) => // p0.
by rewrite -mulf_div divff // mul1r.
Qed.

Lemma zip_map_both U V (h : U -> V) (s t : seq U) :
  zip (map h s) (map h t) = [seq (h pq.1, h pq.2) | pq <- zip s t].
Proof. by elim: s t => [|x s IHs] [|y t] //=; rewrite IHs. Qed.

Lemma pct_change_col_rescale (c : R) xs :
  c != 0 -> pct_change_col [seq c * x | x <- xs] = pct_change_col xs.
Proof.
move=> c0; case: xs => [|x xs] //=; congr omap_outcome.
rewrite -[_ :: map _ xs]/(map _ (x :: xs)) zip_map_both traverse_map.
by apply: eq_traverse => pq; exact: pct_cell_rescale.
Qed.

Lemma returns_from_prices_rescale (g : A -> R) prices :
  (forall a, g a != 0) ->
  returns_from_prices (rescale g prices) = returns_from_prices prices.
Proof.
move=> g0; rewrite /returns_from_prices /pct_change /rescale /labels /=.
have -> : unzip1 [seq (c.1, [seq g c.1 * x | x <- c.2]) | c <- columns prices]
        = unzip1 (columns prices).
  by rewrite /unzip1 -map_comp.
congr (omap_outcome _ (omap_outcome _ _)).
rewrite /unzip2 -map_comp !traverse_map.
by apply: eq_traverse => c; exact: pct_change_col_rescale.
Qed.

(** X8.  Multiplying the prices of each asset by a nonzero factor of its
    own changes none of the three results: the returns, the mean return
    and the exponentially weighted return are those of the table given. *)
Theorem returns_rescale_invariant (g : A -> R) prices (frequency span : int) :
  (forall a, g a != 0) ->
  [/\ returns_from_prices (rescale g prices) = returns_from_prices prices,
      mean_historical_return (rescale g prices) frequency
      = mean_historical_return prices frequency
    & ema_historical_return (rescale g prices) frequency span
      = ema_historical_return prices frequency span].
Proof.
move=> g0; rewrite /mean_historical_return /ema_historical_return.
by rewrite returns_from_prices_rescale.
Qed.

(** *** [prices_from_returns] on its own *)

Lemma set_first_twice C (v w : C) (s : seq C) :
  set_first v (set_first w s) = set_first v s.
Proof. by case: s. Qed.

Lemma map_set_first C D (h : C -> D) (w : C) (s : seq C) :
  map h (set_first w s) = set_first (h w) (map h s).
Proof. by case: s. Qed.

(** X11.  [prices_from_returns] does not read the first row of its
    argument: overwriting that row with any cell leaves the result as it
    is (the row is replaced by 1 before the product is formed). *)
Theorem prices_from_returns_first_row (v : cell R) df :
  prices_from_returns (map_columns (set_first v) df)
  = prices_from_returns df.
Proof.
rewrite /prices_from_returns /iloc0_assign /map_columns /=.
case: (index df) => [|t ts] //=; congr (Value (mkFrame _ _)).
rewrite -!map_comp; apply: eq_map => c /=.
by rewrite map_set_first set_first_twice.
Qed.

(** The pseudo-prices of the changes of a column of positive prices, the
    leading row being whatever it is, are the prices over the first one. *)
Lemma growth_of_changes xs :
  all (fun x => 0 < x) xs ->
  cumprod_col
    (set_first (Some 1)
       [seq omap (fun r => 1 + r) y | y <- changes_after_nan xs])
  = growth_of xs.
Proof.
case: xs => [|x0 rest] // pos; have /andP [x0_gt0 _] := pos.
rewrite /changes_after_nan /growth_of /rebased /= /cumprod_col /= mulr1.
rewrite divff ?gt_eqF // -map_comp (@eq_map _ _ _ (fun r => Some (1 + r))) //.
rewrite cumprod_changes //; congr (_ :: _).
by apply: eq_map => x; rewrite mul1r.
Qed.

(** X12.  Fed with the changes of a price table whose leading row is kept
    ([prices.pct_change()], the NaN row not dropped), [prices_from_returns]
    gives back every price divided by the first price of its asset: the
    whole relative growth, in the rows and columns of the table. *)
Theorem prices_from_returns_pct_change prices :
  price_table prices -> (0 < n_rows prices)%N ->
  obind (pct_change prices) (@prices_from_returns R T A)
  = Value (map_columns (@growth_of R) prices).
Proof.
move=> pt rows; rewrite pct_change_positive //=.
case: prices pt rows => ix cols /andP [_ /= pos]; rewrite /n_rows /= => rows.
rewrite /prices_from_returns /iloc0_assign /map_columns /=.
case: ix rows => [|t ts] //= _; congr (Value (mkFrame _ _)).
rewrite -!map_comp; apply: eq_map_all pos => c /= pos_c.
by rewrite growth_of_changes.
Qed.

(** *** From returns to pseudo-prices and back *)

Lemma cumprod_numbers (acc : R) (rs : seq R) :
  cumprod_from acc [seq Some (1 + r) | r <- rs]
  = map Some (scanl (fun p r => p * (1 + r)) acc rs).
Proof. by elim: rs acc => [|r rs IHrs] acc //=; rewrite IHrs. Qed.

Lemma compound_column (rs : seq R) :
  cumprod_col
    (set_first (Some 1) [seq omap (fun r => 1 + r) y | y <- map Some rs])
  = map Some (compound rs).
Proof.
case: rs => [|r0 rs] //=; rewrite /cumprod_col /= mulr1; congr (_ :: _).
by rewrite -map_comp (@eq_map _ _ _ (fun r => Some (1 + r))) // cumprod_numbers.
Qed.

Lemma size_compound (rs : seq R) : size (compound rs) = size rs.
Proof. by case: rs => [|r rs] //=; rewrite size_scanl. Qed.

Lemma scanl_positive (acc : R) (rs : seq R) :
  0 < acc -> all (fun r => 0 < 1 + r) rs ->
  all (fun x => 0 < x) (scanl (fun p r => p * (1 + r)) acc rs).
Proof.
elim: rs acc => [|r rs IHrs] acc //= acc0 /andP [r0 pos].
by rewrite mulr_gt0 //= IHrs // mulr_gt0.
Qed.

Lemma compound_positive (rs : seq R) :
  all (fun r => 0 < 1 + r) (behead rs) -> all (fun x => 0 < x) (compound rs).
Proof. by case: rs => [|r rs] //= pos; rewrite ltr01 scanl_positive. Qed.

Lemma changes_scanl (acc : R) (rs : seq R) :
  0 < acc -> all (fun r => 0 < 1 + r) rs ->
  changes (acc :: scanl (fun p r => p * (1 + r)) acc rs) = rs.
Proof.
elim: rs acc => [|r rs IHrs] acc // acc0 /andP [r0 pos].
rewrite [scanl _ _ _]/= changes_cons IHrs ?mulr_gt0 //; congr (_ :: _).
by rewrite mulrDr mulr1 addrC addKr [acc * r]mulrC mulfK // gt_eqF.
Qed.

Lemma changes_compound (rs : seq R) :
  all (fun r => 0 < 1 + r) (behead rs) -> changes (compound rs) = behead rs.
Proof. by case: rs => [|r rs] //= pos; rewrite changes_scanl. Qed.

(** X13.  Round trip from returns: for a table of returns without NaN,
    with a row and an asset, whose growth factors [1 + r] after the first
    row are positive, [prices_from_returns] gives a price table, and
    [returns_from_prices] of it gives the returns back, the first row
    apart. *)
Theorem returns_from_pseudo_prices (returns : DataFrame T A R) :
  well_formed returns -> (0 < n_rows returns)%N ->
  (0 < size (columns returns))%N ->
  all (fun c => all (fun r => 0 < 1 + r) (behead c.2)) (columns returns) ->
  exists pseudo : DataFrame T A R,
    [/\ prices_from_returns (numbers returns) = Value (numbers pseudo),
        price_table pseudo
      & returns_from_prices pseudo
        = Value (numbers (drop_first_row returns))].
Proof.
case: returns => ix cols; rewrite /well_formed /n_rows /= => wf rows ncols pos.
exists (map_columns (@compound R) (mkFrame ix cols)).
have pt : price_table (map_columns (@compound R) (mkFrame ix cols)).
  rewrite /price_table /well_formed /map_columns /= !all_map.
  apply/andP; split.
    by apply: sub_all wf => c /=; rewrite size_compound.
  by apply: sub_all pos => c /=; exact: compound_positive.
split=> //.
  rewrite /prices_from_returns /iloc0_assign /numbers /map_columns /=.
  case: ix rows {wf pt} => [|t ts] //= _; congr (Value (mkFrame _ _)).
  by rewrite -!map_comp; apply: eq_map => c /=; rewrite compound_column.
rewrite returns_from_prices_positive // /returns_spec /numbers /drop_first_row.
rewrite /map_columns /= -!map_comp.
case: cols ncols pos {wf pt} => [|c cs] // _ pos; congr (Value (mkFrame _ _)).
by apply: eq_map_all pos => col /= pos_col; rewrite changes_compound.
Qed.

(** *** Estimates on columns of equal returns *)

Lemma sum_constant (y : R) (ys : seq R) :
  all (fun z => z == y) ys -> \sum_(z <- ys) z = (size ys)%:R * y.
Proof.
elim: ys => [|z ys IHys] /=; first by rewrite big_nil mul0r.
by case/andP=> /eqP -> /IHys; rewrite big_cons -natr1 mulrDl mul1r addrC => ->.
Qed.

Lemma arithmetic_mean_constant (y : R) (ys : seq R) :
  (0 < size ys)%N -> all (fun z => z == y) ys ->
  arithmetic_mean ys = Some y.
Proof.
case: ys => [|z ys] // _ eq_y; rewrite /arithmetic_mean (sum_constant eq_y).
by rewrite [_ * y]mulrC mulfK // pnatr_eq0.
Qed.

Lemma decayed_sum_constant (q y : R) (ys : seq R) :
  all (fun z => z == y) ys ->
  decayed_sum q ys = decayed_weight q (size ys) * y.
Proof.
move=> eq_y; rewrite /decayed_sum /decayed_weight mulr_suml.
apply: eq_bigr => i _; congr (_ * _).
by apply/eqP; move/(all_nthP 0): eq_y; apply.
Qed.

Lemma ewma_weighted_constant (q y : R) (ys : seq R) :
  0 <= q -> (0 < size ys)%N -> all (fun z => z == y) ys ->
  ewma_weighted q ys = y.
Proof.
move=> q0 nonempty eq_y; rewrite /ewma_weighted (decayed_sum_constant _ eq_y).
rewrite [_ * y]mulrC mulfK //; case: (size ys) nonempty => [|m] // _.
by rewrite gt_eqF // decayed_weight_gt0.
Qed.

Lemma ewma_weighted_newest (ys : seq R) :
  (0 < size ys)%N -> ewma_weighted 0 ys = last 0 ys.
Proof.
case/lastP: ys => [|ys y] // _; rewrite /ewma_weighted decayed_sum_rcons.
by rewrite size_rcons decayed_weightS !mul0r !add0r divr1 last_rcons.
Qed.

Lemma alpha_of_span1 : alpha_of_span R 1 = 1.
Proof. by rewrite /alpha_of_span -[2%:R]/(1 + 1) divff // two_neq0. Qed.

(** The changes of a table with two rows or more are not empty. *)
Lemma changes_nonempty prices :
  well_formed prices -> (1 < n_rows prices)%N ->
  all (fun c => 0 < size (changes c.2))%N (columns prices).
Proof.
move=> wf rows; apply: sub_all wf => c /eqP sz_c.
by rewrite size_changes sz_c -ltnS prednK // ltnW.
Qed.

Lemma mean_historical_return_constant prices (frequency : int) :
  price_table prices -> (1 < n_rows prices)%N ->
  all (fun c => all (fun y => y == head 0 (changes c.2)) (changes c.2))
      (columns prices) ->
  mean_historical_return prices frequency
  = Value [seq (c.1, Some (head 0 (changes c.2) * frequency%:~R))
          | c <- columns prices].
Proof.
move=> pt rows eq_r; rewrite mean_historical_return_positive //.
have /andP [wf _] := pt; congr Value.
apply: eq_map_all (all_both (changes_nonempty wf rows) eq_r) => c /=.
by case/andP=> nonempty eq_c; rewrite (arithmetic_mean_constant nonempty eq_c).
Qed.

Lemma ema_historical_return_constant prices (frequency span : int) :
  price_table prices -> (1 < n_rows prices)%N ->
  (0 < size (columns prices))%N -> (1 <= span)%R ->
  all (fun c => all (fun y => y == head 0 (changes c.2)) (changes c.2))
      (columns prices) ->
  ema_historical_return prices frequency span
  = Value [seq (c.1, Some (head 0 (changes c.2) * frequency%:~R))
          | c <- columns prices].
Proof.
move=> pt rows ncols span1 eq_r; rewrite ema_historical_return_positive //.
have /andP [wf _] := pt; congr Value.
apply: eq_map_all (all_both (changes_nonempty wf rows) eq_r) => c /=.
case/andP=> nonempty eq_c.
by rewrite (ewma_weighted_constant _ nonempty eq_c) // alpha_of_span_le1.
Qed.

(** X14.  When the return of every asset is the same in every period
    (prices growing at a constant rate, or not moving), both estimators
    return that return times [frequency], whatever the span. *)
Theorem constant_return_estimates prices (frequency span : int) :
  price_table prices -> (1 < n_rows prices)%N ->
  (0 < size (columns prices))%N -> (1 <= span)%R ->
  all (fun c => all (fun y => y == head 0 (changes c.2)) (changes c.2))
      (columns prices) ->
  mean_historical_return prices frequency
  = Value [seq (c.1, Some (head 0 (changes c.2) * frequency%:~R))
          | c <- columns prices]
  /\ ema_historical_return prices frequency span
     = mean_historical_return prices frequency.
Proof.
move=> pt rows ncols span1 eq_r.
by rewrite ema_historical_return_constant // mean_historical_return_constant.
Qed.

(** X15.  On a price table with exactly two rows the span has no effect:
    [ema_historical_return] returns what [mean_historical_return]
    returns, the one return of each asset times [frequency]. *)
Theorem ema_two_rows_is_mean prices (frequency span : int) :
  price_table prices -> n_rows prices = 2 ->
  (0 < size (columns prices))%N -> (1 <= span)%R ->
  ema_historical_return prices frequency span
  = mean_historical_return prices frequency.
Proof.
move=> pt rows ncols span1; have /andP [wf _] := pt.
have eq_r : all (fun c => all (fun y => y == head 0 (changes c.2))
                            (changes c.2)) (columns prices).
  apply: sub_all wf => c /eqP sz_c.
  have: size (changes c.2) = 1%N by rewrite size_changes sz_c -/(n_rows _) rows.
  by case: (changes c.2) => [|y [|z ys]] //= _; rewrite eqxx.
rewrite ema_historical_return_constant ?rows //.
by rewrite mean_historical_return_constant ?rows.
Qed.

(** X18.  With [span = 1] nothing of the past is kept: the result is the
    last return of each asset times [frequency]. *)
Theorem ema_span_one prices (frequency : int) :
  price_table prices -> (1 < n_rows prices)%N ->
  (0 < size (columns prices))%N ->
  ema_historical_return prices frequency 1
  = Value [seq (c.1, Some (last 0 (changes c.2) * frequency%:~R))
          | c <- columns prices].
Proof.
move=> pt rows ncols; rewrite ema_historical_return_positive //.
have /andP [wf _] := pt; congr Value.
apply: eq_map_all (changes_nonempty wf rows) => c /= nonempty.
by rewrite alpha_of_span1 subrr ewma_weighted_newest.
Qed.

(** *** Bounds *)

Lemma sum_bounds (lo hi : R) (ys : seq R) :
  all (fun y => lo <= y <= hi) ys ->
  (size ys)%:R * lo <= \sum_(y <- ys) y <= (size ys)%:R * hi.
Proof.
elim: ys => [|y ys IHys] /=; first by rewrite big_nil !mul0r lexx.
case/andP=> /andP [lo_y y_hi] /IHys /andP [lo_s s_hi].
by rewrite big_cons -nat1r !mulrDl !mul1r !lerD.
Qed.

Lemma arithmetic_mean_within (lo hi : R) (ys : seq R) :
  (0 < size ys)%N -> all (fun y => lo <= y <= hi) ys ->
  cell_within lo hi (arithmetic_mean ys).
Proof.
case: ys => [|y ys] // _ /sum_bounds /andP [lo_s s_hi].
have n_gt0 : 0 < (size (y :: ys))%:R :> R by rewrite ltr0n.
by rewrite /arithmetic_mean /= ler_pdivlMr // ler_pdivrMr // ![_ * _%:R]mulrC
           lo_s s_hi.
Qed.

Lemma decayed_sum_bounds (q lo hi : R) (ys : seq R) :
  0 <= q -> all (fun y => lo <= y <= hi) ys ->
  decayed_weight q (size ys) * lo <= decayed_sum q ys
                                  <= decayed_weight q (size ys) * hi.
Proof.
move=> q0 /(all_nthP 0) within; rewrite /decayed_sum /decayed_weight.
rewrite !mulr_suml; apply/andP; split; apply: ler_sum => i _.
  by rewrite ler_wpM2l ?exprn_ge0 //; case/andP: (within i (ltn_ord i)).
by rewrite ler_wpM2l ?exprn_ge0 //; case/andP: (within i (ltn_ord i)).
Qed.

Lemma ewma_weighted_within (q lo hi : R) (ys : seq R) :
  0 <= q -> (0 < size ys)%N -> all (fun y => lo <= y <= hi) ys ->
  lo <= ewma_weighted q ys <= hi.
Proof.
move=> q0 nonempty /(decayed_sum_bounds q0) /andP [lo_s s_hi].
have W_gt0 : 0 < decayed_weight q (size ys).
  by case: (size ys) nonempty => [|m] // _; exact: decayed_weight_gt0.
by rewrite /ewma_weighted ler_pdivlMr // ler_pdivrMr //
           ![_ * decayed_weight _ _]mulrC lo_s s_hi.
Qed.

Lemma scale_within (lo hi v w : R) :
  0 <= w -> lo <= v <= hi -> lo * w <= v * w <= hi * w.
Proof. by move=> w0 /andP [lo_v v_hi]; rewrite !ler_wpM2r. Qed.

(** X16.  Both estimates are averages: when every return of every asset
    lies between [lo] and [hi] and [frequency] is not negative, every
    cell of both results lies between [lo * frequency] and
    [hi * frequency]. *)
Theorem estimates_within_bounds prices (frequency span : int) (lo hi : R) :
  price_table prices -> (1 < n_rows prices)%N ->
  (0 < size (columns prices))%N -> (1 <= span)%R -> (0 <= frequency)%R ->
  all (fun c => all (fun y => lo <= y <= hi) (changes c.2)) (columns prices) ->
  exists m e : Series R A,
    [/\ mean_historical_return prices frequency = Value m,
        ema_historical_return prices frequency span = Value e,
        all (fun c => cell_within (lo * frequency%:~R) (hi * frequency%:~R)
                        c.2) m
      & all (fun c => cell_within (lo * frequency%:~R) (hi * frequency%:~R)
                        c.2) e].
Proof.
move=> pt rows ncols span1 f0 within; have /andP [wf _] := pt.
have fR0 : 0 <= frequency%:~R :> R by rewrite ler0z.
have both := all_both (changes_nonempty wf rows) within.
eexists; eexists; split.
- exact: mean_historical_return_positive.
- exact: ema_historical_return_positive.
- rewrite all_map; apply: sub_all both => c /= /andP [nonempty within_c].
  have := arithmetic_mean_within nonempty within_c.
  by case: (arithmetic_mean _) => [v|] //=; exact: scale_within.
- rewrite all_map; apply: sub_all both => c /= /andP [nonempty within_c].
  apply: scale_within => //; apply: ewma_weighted_within => //.
  exact: alpha_of_span_le1.
Qed.

(** More than the whole price cannot be lost. *)
Lemma changes_above (xs : seq R) :
  all (fun x => 0 < x) xs -> all (fun y => -1 < y) (changes xs).
Proof.
elim: xs => [|x [|y xs] IHxs] // /andP [x_gt0 pos].
rewrite changes_cons /= IHxs // andbT mulrBl divff ?gt_eqF //.
by rewrite ltrBrDl subrr divr_gt0 //; case/andP: pos.
Qed.

(** X17.  On a price table every cell of the return table is a number
    above -1: a positive price cannot fall by its whole value. *)
Theorem returns_above_minus_one prices :
  price_table prices ->
  exists2 returns,
    returns_from_prices prices = Value returns
    & all (fun c => all (cell_above (-1)) c.2) (columns returns).
Proof.
move=> pt; exists (returns_spec prices).
  exact: returns_from_prices_positive.
case/andP: pt => _ pos; rewrite /returns_spec /= all_map.
by apply: sub_all pos => c /= /changes_above; rewrite all_map.
Qed.

(** *** Every outcome on a price table *)

(** X19.  On a price table [ema_historical_return] raises [ValueError]
    exactly when [span < 1]; otherwise it raises [IndexError] exactly when
    the table has fewer than two rows or no asset; otherwise it returns
    the weighted averages. *)
Theorem ema_historical_return_cases prices (frequency span : int) :
  price_table prices ->
  ema_historical_return prices frequency span
  = if (span < 1)%R then Raise ValueError
    else if (n_rows prices <= 1)%N || (size (columns prices) == 0)%N
         then Raise IndexError
    else Value [seq (c.1, Some (ewma_weighted (1 - alpha_of_span R span)
                                  (changes c.2) * frequency%:~R))
               | c <- columns prices].
Proof.
move=> pt; case: ltP => [small | span1].
  by rewrite /ema_historical_return /get_center_of_mass small.
case: ifP => [short | /norP []]; last first.
  rewrite -ltnNge -lt0n => rows ncols.
  exact: ema_historical_return_positive.
rewrite /ema_historical_return /get_center_of_mass ltNge span1 /=.
rewrite returns_from_prices_positive //= /iloc_last /returns_spec /=.
case: prices short {pt} => ix [|c cs] //=; rewrite /n_rows /= orbF.
by case: ix => [|t0 [|t1 ts]].
Qed.

(** *** Tables with fewer than two rows *)

Lemma pct_change_col_short xs :
  (size xs <= 1)%N -> pct_change_col xs = Value (changes_after_nan xs).
Proof. by case: xs => [|x [|y xs]]. Qed.

Lemma changes_short xs : (size xs <= 1)%N -> changes xs = [::].
Proof. by case: xs => [|x [|y xs]]. Qed.

(** X20.  A table with fewer than two rows, whatever its numbers: the
    return table has its columns and no row, and [mean_historical_return]
    returns NaN for every asset, without an error. *)
Theorem short_table_is_nan prices (frequency : int) :
  well_formed prices -> (n_rows prices <= 1)%N ->
  returns_from_prices prices
  = Value (mkFrame [::] [seq (c.1, [::]) | c <- columns prices])
  /\ mean_historical_return prices frequency
     = Value [seq (c.1, None) | c <- columns prices].
Proof.
move=> wf rows.
have short : all (fun c => size c.2 <= 1)%N (columns prices).
  by apply: sub_all wf => c /eqP ->.
have ret : returns_from_prices prices
           = Value (mkFrame [::] [seq (c.1, [::]) | c <- columns prices]).
  rewrite /returns_from_prices /pct_change.
  rewrite (traverse_values pct_change_col_short) /=.
    by rewrite /unzip2 all_map.
  rewrite zip_labels_map dropna_changes // /returns_spec.
  congr (Value (mkFrame _ _)).
    case: (columns prices) => [|c cs] //.
    by move: rows; rewrite /n_rows; case: (index prices) => [|t [|t' ts]].
  by apply: eq_map_all short => c /= /changes_short ->.
split=> //; rewrite /mean_historical_return ret /=.
by rewrite /frame_mean /scale_series /= -!map_comp.
Qed.

(** *** The shape of a return table, whatever the prices *)

Lemma traverse_all2 U V (f : U -> outcome V) (p : U -> V -> bool)
    (s : seq U) (ys : seq V) :
  (forall x y, f x = Value y -> p x y) ->
  traverse f s = Value ys -> all2 p s ys.
Proof.
move=> fp; elim: s ys => [|x s IHs] ys /=; first by case=> <-.
case fx: (f x) => [y|e|] //=.
case tr: (traverse f s) => [ys'|e|] //= [<-] /=.
by rewrite (fp _ _ fx) IHs.
Qed.

Lemma size_all2 U V (p : U -> V -> bool) (s : seq U) (t : seq V) :
  all2 p s t -> size t = size s.
Proof. by elim: s t => [|x s IHs] [|y t] //= /andP [_ /IHs ->]. Qed.

(** A column of [pct_change()] has the length of the column of prices, and
    no number in its leading row. *)
Lemma pct_change_col_shape xs (ys : seq (cell R)) :
  pct_change_col xs = Value ys ->
  (size ys == size xs) && ~~ isSome (nth None ys 0).
Proof.
case: xs => [|x xs] /=; first by case=> <-.
rewrite /omap_outcome.
case tr: (traverse _ _) => [ys'|e|] //= [<-] /=.
have /size_all2 -> :=
  traverse_all2 (p := fun _ _ => true) (fun _ _ _ => isT) tr.
by rewrite size_zip /= minnC /minn ltnSn eqxx.
Qed.

Lemma all2_columns (n : nat) (cols : seq (seq R)) (cs : seq (seq (cell R))) :
  all (fun xs => size xs == n) cols ->
  all2 (fun xs ys => (size ys == size xs) && ~~ isSome (nth None ys 0))
       cols cs ->
  all (fun ys => (size ys == n) && ~~ isSome (nth None ys 0)) cs.
Proof.
elim: cols cs => [|xs cols IHcols] [|ys cs] //= /andP [/eqP sz_xs wf].
by rewrite sz_xs; case/andP=> -> /(IHcols _ wf).
Qed.

Lemma size_mask_rows C (keep : bitseq) (s : seq C) :
  size s = size keep -> size (mask keep s) = count id keep.
Proof. by move=> sz; rewrite size_mask. Qed.

(** X9.  Whatever the numbers of a rectangular table of prices, a return
    table that [returns_from_prices] returns is rectangular, has the
    columns of the table in their order, and its rows are rows of the
    table in their order, the leading row never among them: the index is
    the index of the prices under a mask whose first entry is [false]. *)
Theorem returns_from_prices_shape prices (returns : DataFrame T A (cell R)) :
  well_formed prices ->
  returns_from_prices prices = Value returns ->
  exists keep : bitseq,
    [/\ size keep = n_rows prices,
        head false keep = false,
        index returns = mask keep (index prices),
        well_formed returns /\ labels returns = labels prices
      & (n_rows returns <= (n_rows prices).-1)%N].
Proof.
case: prices => ix cols; rewrite /well_formed /n_rows /= => wf.
rewrite /returns_from_prices /pct_change /omap_outcome /labels /=.
case tr: (traverse _ _) => [cs|e|] //= [<-] {returns}.
have shape := all2_columns (n := size ix) _
                (traverse_all2 (@pct_change_col_shape) tr).
have {shape} /shape shape : all (fun xs => size xs == size ix) (unzip2 cols).
  by rewrite /unzip2 all_map.
have sz_cs : size cs = size cols.
  have :=
    size_all2 (traverse_all2 (p := fun _ _ => true) (fun _ _ _ => isT) tr).
  by rewrite size_map.
rewrite /dropna_all /n_rows /=.
set keep := map _ (iota 0 (size ix)).
have sz_keep : size keep = size ix by rewrite size_map size_iota.
have kept_cs : all (fun ys => size (mask keep ys) == count id keep) cs.
  apply: sub_all shape => ys /andP [/eqP sz_ys _].
  by rewrite size_mask ?sz_ys ?sz_keep.
have leading : head false keep = false.
  rewrite /keep; case: (size ix) => [|m] //=.
  rewrite /row_has_value /=.
  rewrite -(unzip2_zip (s := unzip1 cols) (t := cs)) ?size_map ?sz_cs //
    in shape.
  move: shape; rewrite /unzip2 all_map.
  elim: (zip _ _) => [|c cz IHcz] //= /andP [/andP [_ /negbTE ->] /IHcz].
  by [].
exists keep; split=> //.
- split.
    rewrite /well_formed /= size_mask // all_map.
    move: kept_cs.
    rewrite -[cs in all _ cs](@unzip2_zip _ _ (unzip1 cols))
      ?size_map ?sz_cs //.
    by rewrite /unzip2 all_map.
  have -> : forall z : seq (A * seq (cell R)),
      unzip1 [seq (c.1, mask keep c.2) | c <- z] = unzip1 z.
    by move=> z; rewrite /unzip1 -map_comp.
  by rewrite unzip1_zip // size_map sz_cs.
- rewrite size_mask // -sz_keep.
  case: keep leading {sz_keep kept_cs} => [|b k] //= ->.
  by rewrite add0n count_size.
Qed.

End TableAlgebra.

(** ** The posterior in binary64 *)

Section RoundedPosterior.

Import Binary64.










End RoundedPosterior.


(** ** The posterior on closed inputs *)

Section PosteriorExamples.

Import BL PosteriorExample.

Lemma example_Omega_diag i : Omega i i != 0.
Proof. by rewrite /Omega mxE eqxx mulr1n. Qed.

Lemma example_cov_unit : tau *: Sigma \in unitmx.
Proof. by rewrite /Sigma scale_scalar_mx unitmx_scalar. Qed.

Lemma example_system_unit : A_spec tau Sigma P Omega \in unitmx.
Proof. by rewrite /Sigma /P /Omega A_spec_scalar unitmx_scalar. Qed.

Lemma black_litterman_return_posterior_witness :
  [/\ forall i, Omega i i != 0,
      tau *: Sigma \in unitmx,
      A_spec tau Sigma P Omega \in unitmx
    & exists x : 'cV[rat]_2,
        [/\ black_litterman_return Pi Sigma Q (Some Omega) (PGiven P) tau
              = Value (mkSeries (index Pi) x),
            A_spec tau Sigma P Omega *m x
              = b_spec tau Sigma P Omega (values Pi) Q
          & forall y, A_spec tau Sigma P Omega *m y
                        = b_spec tau Sigma P Omega (values Pi) Q -> y = x]].
Proof.
split.
- exact: example_Omega_diag.
- exact: example_cov_unit.
- exact: example_system_unit.
- apply: black_litterman_return_posterior.
  + exact: example_Omega_diag.
  + exact: example_cov_unit.
  + exact: example_system_unit.
Defined.

Lemma example_coupled_diag i : Omega_coupled i i = Omega i i.
Proof.
rewrite /Omega_coupled mxE (_ : delta_mx 0 1 i i = 0) ?addr0 // mxE.
by case: i => [[|[|i]] lti].
Qed.

Lemma black_litterman_return_diag_only_witness :
  (forall i, Omega_coupled i i = Omega i i) /\
  black_litterman_return Pi Sigma Q (Some Omega_coupled) (PGiven P) tau
  = black_litterman_return Pi Sigma Q (Some Omega) (PGiven P) tau.
Proof.
split; first exact: example_coupled_diag.
apply: black_litterman_return_diag_only; exact: example_coupled_diag.
Defined.

(** The two matrices of the witness differ: only their diagonals agree. *)
Lemma example_coupled_differs : Omega_coupled != Omega.
Proof.
apply/eqP => /matrixP /(_ 0 1).
rewrite /Omega_coupled /Omega !mxE /= add0r => /eqP.
by [].
Qed.

Lemma example_zero_singular : tau *: Sigma_zero \notin unitmx.
Proof. by rewrite /Sigma_zero scaler0 unitmxE det0 unitr0. Qed.

Lemma exact_singular_raises_zero :
  (tau *: Sigma_zero \notin unitmx \/
   [/\ tau *: Sigma_zero \in unitmx,
       forall i, default_Omega None tau (default_P (PNone rat 2)) Sigma_zero
                   i i != 0
     & A_spec tau Sigma_zero (default_P (PNone rat 2))
         (default_Omega None tau (default_P (PNone rat 2)) Sigma_zero)
         \notin unitmx]) /\
  black_litterman_return Pi Sigma_zero Q None (PNone rat 2) tau
  = Raise LinAlgError.
Proof.
have h := example_zero_singular.
split; first by left.
by apply: exact_singular_raises; left.
Qed.

(** A singular [A] at the solve step: one asset, [tau Sigma = 1] and
    [Omega = -1], so that [A = 1 + (-1) = 0].  The hypotheses of C10 hold
    and the call raises instead of returning [Pi]. *)
Lemma fixed_point_counterexample :
  [/\ forall i, Omega_neg i i != 0,
      1 *: Sigma1 \in unitmx,
      black_litterman_return Pi1 Sigma1 (values Pi1) (Some Omega_neg)
        (PGiven (identity_spec rat 1)) 1 = Raise LinAlgError
    & black_litterman_return Pi1 Sigma1 (values Pi1) (Some Omega_neg)
        (PGiven (identity_spec rat 1)) 1 <> Value Pi1].
Proof.
have nz i : Omega_neg i i != 0 by rewrite /Omega_neg mxE eqxx mulr1n.
have uS : 1 *: Sigma1 \in unitmx by rewrite scale1r unitmx1.
have raises : black_litterman_return Pi1 Sigma1 (values Pi1) (Some Omega_neg)
    (PGiven (identity_spec rat 1)) 1 = Raise LinAlgError.
  rewrite black_litterman_return_solve //= identity_spec1.
  rewrite /Sigma1 /Omega_neg /linalg_solve A_spec_scalar.
  have -> : (1 * 1)^-1 + (-1)^-1 = 0 :> rat by [].
  by rewrite unitmxE det_scalar1 unitr0.
by split=> //; rewrite raises.
Qed.

Lemma black_litterman_return_fixed_point_witness :
  [/\ forall i, Omega i i != 0,
      tau *: Sigma \in unitmx,
      A_spec tau Sigma (identity_spec rat 2) Omega \in unitmx
    & black_litterman_return Pi Sigma (values Pi) (Some Omega)
        (PGiven (identity_spec rat 2)) tau = Value Pi].
Proof.
have uA : A_spec tau Sigma (identity_spec rat 2) Omega \in unitmx.
  by rewrite identity_spec1; exact: example_system_unit.
split=> //.
- exact: example_Omega_diag.
- exact: example_cov_unit.
- apply: black_litterman_return_fixed_point => //.
  + exact: example_Omega_diag.
  + exact: example_cov_unit.
Defined.

(** With the defaults, prior 0 and view 2 on one asset with unit
    variance, the posterior is 1 at every [tau <> 0]: it does not come
    within 1/2 of the prior, however small [tau]. *)
Lemma prior_limit_counterexample : ~ approaches_prior Pi0 Sigma1 Q2.
Proof.
move=> /(_ 2%:R^-1 isT) [delta delta0 /(_ (delta / 2%:R))].
have half := half_between delta0.
move=> /(_ half) [x].
rewrite /Sigma1 (defaults_scalar_covariance Pi0 Q2) //.
  by rewrite mulr1 gt_eqF // divr_gt0.
case=> <- /(_ 0) /=.
rewrite /Q2 !mxE add0r subr0 mulVf //.
Qed.

(** The posterior of the two-asset example at [tau = 1/20] is the one at
    [tau = 1]. *)
Lemma example_tau_free :
  black_litterman_return Pi Sigma Q None (PNone rat 2) tau
  = black_litterman_return Pi Sigma Q None (PNone rat 2) 1.
Proof. exact: defaults_tau_free. Qed.

End PosteriorExamples.

(** ** The tables on closed inputs *)

Section TableExamples.

Import Frame TableExample.

Lemma frame_value (o : outcome (DataFrame nat nat (cell rat)))
    (ix : seq nat) (cols : seq (nat * seq (cell rat))) :
  (if o is Value df then (index df == ix) && (columns df == cols)
   else false) ->
  o = Value (mkFrame ix cols).
Proof. by case: o => [[i c]|e|] //= /andP [/eqP -> /eqP ->]. Qed.

Lemma frame_eq (df : DataFrame nat nat (cell rat))
    (ix : seq nat) (cols : seq (nat * seq (cell rat))) :
  (index df == ix) && (columns df == cols) -> df = mkFrame ix cols.
Proof. by case: df => [i c] /= /andP [/eqP -> /eqP ->]. Qed.

Lemma price_table_three_rows : price_table three_rows.
Proof. by vm_compute. Qed.

Lemma price_table_two_rows : price_table two_rows.
Proof. by vm_compute. Qed.

Lemma returns_from_prices_changes_witness :
  price_table three_rows /\
  exists returns,
    [/\ returns_from_prices three_rows = Value returns,
        labels returns = labels three_rows,
        index returns
        = (if columns three_rows is [::] then [::]
           else behead (index three_rows)),
        forall j t, (j < size (columns three_rows))%N ->
          size (column returns j) = (n_rows three_rows).-1 /\
          ((t.+1 < n_rows three_rows)%N ->
           nth None (column returns j) t
           = Some ((nth 0 (column three_rows j) t.+1
                    - nth 0 (column three_rows j) t)
                   / nth 0 (column three_rows j) t))
      & constant_prices three_rows -> all_zero returns].
Proof.
split; first exact: price_table_three_rows.
apply: returns_from_prices_changes; exact: price_table_three_rows.
Defined.

(** The return table of the example, cell by cell. *)
Lemma returns_three_rows :
  returns_from_prices three_rows
  = Value (mkFrame [:: 1; 2]%N
             [:: (0%N, [:: Some (10%:Q^-1); Some (5%:Q^-1)]);
                 (1%N, [:: Some (- 2%:Q^-1); Some (4%:Q^-1)])]).
Proof. by apply: frame_value; vm_compute. Qed.

(** Constant prices: every return is zero. *)
Lemma returns_flat_rows :
  returns_from_prices flat_rows
  = Value (mkFrame [:: 1; 2]%N [:: (0%N, [:: Some 0; Some 0])]).
Proof. by apply: frame_value; vm_compute. Qed.

Lemma prices_from_returns_round_trip_witness :
  [/\ price_table three_rows, (1 < n_rows three_rows)%N,
      (0 < size (columns three_rows))%N
    & exists out,
        [/\ obind (returns_from_prices three_rows)
              (@prices_from_returns rat nat nat) = Value out,
            index out = behead (index three_rows)
            /\ labels out = labels three_rows,
            forall j, (j < size (columns three_rows))%N ->
              nth None (column out j) 0 = Some 1
          & forall j t, (j < size (columns three_rows))%N ->
              (t.+2 < n_rows three_rows)%N ->
              nth None (column out j) t.+1
              = Some (nth 0 (column three_rows j) t.+2
                      / nth 0 (column three_rows j) 1)]].
Proof.
split.
- exact: price_table_three_rows.
- by [].
- by [].
- apply: prices_from_returns_round_trip.
  + exact: price_table_three_rows.
  + by [].
  + by [].
Defined.

(** C7 as stated fails on prices 100, 110, 132 (and 8, 4, 5): the round
    trip gives 1 and 132/110 = 6/5 for the first asset, where the claim
    has 132/100 = 33/25. *)
Lemma round_trip_counterexample :
  [/\ price_table three_rows /\ (1 < n_rows three_rows)%N,
      obind (returns_from_prices three_rows)
        (@prices_from_returns rat nat nat)
      = Value (mkFrame [:: 1; 2]%N
                 [:: (0%N, [:: Some 1; Some (6%:Q / 5%:Q)]);
                     (1%N, [:: Some 1; Some (5%:Q / 4%:Q)])]),
      growth_from_first three_rows
      = mkFrame [:: 1; 2]%N
          [:: (0%N, [:: Some 1; Some (33%:Q / 25%:Q)]);
              (1%N, [:: Some 1; Some (5%:Q / 8%:Q)])]
    & obind (returns_from_prices three_rows)
        (@prices_from_returns rat nat nat)
      <> Value (growth_from_first three_rows)].
Proof.
split.
- by split; first exact: price_table_three_rows.
- by apply: frame_value; vm_compute.
- by apply: frame_eq; vm_compute.
- move/(congr1 (fun o => if o is Value df
                         then nth None (column df 0) 1 == Some (6%:Q / 5%:Q)
                         else false)).
  by vm_compute.
Qed.

Lemma mean_historical_return_mean_witness :
  price_table two_rows /\
  exists s : Series rat nat,
    [/\ mean_historical_return two_rows 1 = Value s,
        unzip1 s = labels two_rows,
        s = [seq (c.1, omap (fun m => m * 1%:~R)
                         (arithmetic_mean (changes c.2)))
            | c <- columns two_rows]
      & Binary64.mean_historical_return Binary64.two_rows 1%float
        = [:: (0%N, 0.10000000000000009%float)]].
Proof.
split; first exact: price_table_two_rows.
apply: mean_historical_return_mean; exact: price_table_two_rows.
Defined.

Lemma mean_two_rows_counterexample :
  Binary64.mean_historical_return Binary64.two_rows 1%float
  = [:: (0%N, 0.10000000000000009%float)]
  /\ (0.10000000000000009 =? 0.1)%float = false.
Proof. by split; vm_compute. Qed.

Lemma ema_historical_return_final_witness :
  [/\ price_table three_rows, (1 < n_rows three_rows)%N,
      (0 < size (columns three_rows))%N, (1 <= 3 :> int)%R
    & exists s : Series rat nat,
        [/\ ema_historical_return three_rows 252 3 = Value s,
            unzip1 s = labels three_rows,
            exists2 returns,
              returns_from_prices three_rows = Value returns
              & s = scale_series
                      [seq (c.1, last None (ewma_col (alpha_of_span rat 3) c.2))
                      | c <- columns returns]
                      252
          & s = [seq (c.1, Some (ewma_weighted (1 - alpha_of_span rat 3)
                                   (changes c.2) * 252%:~R))
                | c <- columns three_rows]]].
Proof.
split.
- exact: price_table_three_rows.
- by [].
- by [].
- by [].
- apply: ema_historical_return_final.
  + exact: price_table_three_rows.
  + by [].
  + by [].
  + by [].
Defined.

(** The smoothed value of the example with span 3 ([alpha = 1/2]): the
    returns 1/10 and 1/5 average to (1/2 * 1/10 + 1/5) / (1/2 + 1). *)
Lemma ema_three_rows :
  ema_historical_return three_rows 1 3
  = Value [:: (0%N, Some (1%:Q / 6%:Q)); (1%N, Some 0)].
Proof.
have : if ema_historical_return three_rows 1 3 is Value s
       then s == [:: (0%N, Some (1%:Q / 6%:Q)); (1%N, Some 0)] else false.
  by vm_compute.
by case: (ema_historical_return _ _ _) => // s /eqP ->.
Qed.

(** C9 as stated fails on a price table with a single row: the return
    table has no row, and [iloc[-1]] raises. *)
Lemma ema_single_row_counterexample :
  [/\ price_table one_row, (0 < 500 :> int)%R
    & ema_historical_return one_row 252 500 = Raise IndexError].
Proof. by split; vm_compute. Qed.

(** Without an asset every row of the return table is dropped, and both
    positional accesses raise. *)
Lemma no_asset_raises :
  obind (returns_from_prices no_asset) (@prices_from_returns rat nat nat)
  = Raise IndexError
  /\ ema_historical_return no_asset 252 500 = Raise IndexError.
Proof. by split; vm_compute. Qed.

(** A span below 1 is rejected before anything is smoothed. *)
Lemma ema_span_rejected :
  ema_historical_return three_rows 252 0 = Raise ValueError.
Proof. by vm_compute. Qed.

(** On the single row the mean return is NaN, not an error. *)
Lemma mean_single_row :
  mean_historical_return one_row 252 = Value [:: (0%N, None)].
Proof. by vm_compute. Qed.

End TableExamples.

(** ** Further facts on closed inputs *)

Section PosteriorAlgebraExamples.

Import BL PosteriorExample.

Lemma black_litterman_return_consistent_views_witness :
  [/\ P *m values Pi = P *m values Pi,
      forall i, Omega i i != 0,
      tau *: Sigma \in unitmx,
      A_spec tau Sigma P Omega \in unitmx
    & black_litterman_return Pi Sigma (P *m values Pi) (Some Omega)
        (PGiven P) tau = Value Pi].
Proof.
split.
- by [].
- exact: example_Omega_diag.
- exact: example_cov_unit.
- exact: example_system_unit.
- apply: black_litterman_return_consistent_views.
  + by [].
  + exact: example_Omega_diag.
  + exact: example_cov_unit.
  + exact: example_system_unit.
Defined.

Lemma black_litterman_return_no_views_witness :
  tau *: Sigma \in unitmx
  /\ black_litterman_return Pi Sigma Q_none None (PGiven P_none) tau
     = Value Pi.
Proof.
split; first exact: example_cov_unit.
apply: black_litterman_return_no_views; exact: example_cov_unit.
Defined.

Lemma example_tau_Sigma : tau * 4%:R != 0 :> rat.
Proof. by []. Qed.

Lemma example_two : (2%:R : rat) != 0.
Proof. by []. Qed.

Lemma example_midpoint (v q : 'cV[rat]_2) :
  black_litterman_return (mkSeries assets v) Sigma q None (PNone rat 2) tau
  = Value (mkSeries assets (2%:R^-1 *: (v + q))).
Proof.
exact: (defaults_scalar_covariance (mkSeries assets v) q example_tau_Sigma
          example_two).
Qed.

Lemma black_litterman_return_linear_witness :
  [/\ black_litterman_return (mkSeries assets (values Pi)) Sigma Q None
        (PNone rat 2) tau
      = Value (mkSeries assets (2%:R^-1 *: (values Pi + Q))),
      black_litterman_return (mkSeries assets prior') Sigma Q' None
        (PNone rat 2) tau
      = Value (mkSeries assets (2%:R^-1 *: (prior' + Q')))
    & black_litterman_return
        (mkSeries assets (3%:R *: values Pi + 5%:R *: prior')) Sigma
        (3%:R *: Q + 5%:R *: Q') None (PNone rat 2) tau
      = Value (mkSeries assets
                 (3%:R *: (2%:R^-1 *: (values Pi + Q))
                  + 5%:R *: (2%:R^-1 *: (prior' + Q'))))].
Proof.
split.
- exact: example_midpoint.
- exact: example_midpoint.
- apply: (black_litterman_return_linear (v1 := values Pi) (v2 := prior')
            (Q1 := Q) (Q2 := Q') 3%:R 5%:R
            (x1 := mkSeries assets (2%:R^-1 *: (values Pi + Q)))
            (x2 := mkSeries assets (2%:R^-1 *: (prior' + Q')))).
  + exact: example_midpoint.
  + exact: example_midpoint.
Defined.

Lemma black_litterman_return_scale_witness :
  (2%:R : rat) != 0
  /\ (black_litterman_return Pi (2%:R *: Sigma) Q (Some (2%:R *: Omega))
        (PGiven P) tau
      = black_litterman_return Pi Sigma Q (Some Omega) (PGiven P) tau
      /\ black_litterman_return Pi Sigma Q (Some (2%:R *: Omega)) (PGiven P)
           (2%:R * tau)
         = black_litterman_return Pi Sigma Q (Some Omega) (PGiven P) tau).
Proof.
split; first exact: example_two.
apply: black_litterman_return_scale; exact: example_two.
Defined.

Lemma example_tau : tau != 0.
Proof. by []. Qed.

Lemma black_litterman_return_absent_Omega_scale_witness :
  [/\ tau != 0, (2%:R : rat) != 0
    & black_litterman_return Pi Sigma Q None (PGiven P) tau
      = black_litterman_return Pi Sigma Q None (PGiven P) 1
      /\ black_litterman_return Pi (2%:R *: Sigma) Q None (PGiven P) tau
         = black_litterman_return Pi Sigma Q None (PGiven P) tau].
Proof.
split.
- exact: example_tau.
- exact: example_two.
- apply: black_litterman_return_absent_Omega_scale.
  + exact: example_tau.
  + exact: example_two.
Defined.

Lemma example_variances i : variances 0 i != 0.
Proof. by rewrite /variances mxE; case: i => [[|[|i]] lti]. Qed.

Lemma black_litterman_return_uncorrelated_witness :
  [/\ forall i, variances 0 i != 0, tau != 0, (2%:R : rat) != 0
    & black_litterman_return Pi (diag_mx variances) Q None (PNone rat 2) tau
      = Value (mkSeries (index Pi) (2%:R^-1 *: (values Pi + Q)))].
Proof.
split.
- exact: example_variances.
- exact: example_tau.
- exact: example_two.
- apply: black_litterman_return_uncorrelated.
  + exact: example_variances.
  + exact: example_tau.
  + exact: example_two.
Defined.

End PosteriorAlgebraExamples.

Section TableAlgebraExamples.

Import Frame TableExample.

Lemma factor_neq0 a : factor a != 0.
Proof. by rewrite /factor; case: ifP. Qed.

Lemma returns_rescale_invariant_witness :
  (forall a, factor a != 0) /\
  [/\ returns_from_prices (rescale factor three_rows)
      = returns_from_prices three_rows,
      mean_historical_return (rescale factor three_rows) 252
      = mean_historical_return three_rows 252
    & ema_historical_return (rescale factor three_rows) 252 3
      = ema_historical_return three_rows 252 3].
Proof.
split; first exact: factor_neq0.
apply: returns_rescale_invariant; exact: factor_neq0.
Defined.

Lemma well_formed_three_rows : well_formed three_rows.
Proof. by []. Qed.

Lemma returns_from_prices_shape_witness :
  [/\ well_formed three_rows,
      returns_from_prices three_rows = Value three_rows_returns
    & exists keep : bitseq,
        [/\ size keep = n_rows three_rows,
            head false keep = false,
            index three_rows_returns = mask keep (index three_rows),
            well_formed three_rows_returns
            /\ labels three_rows_returns = labels three_rows
          & (n_rows three_rows_returns <= (n_rows three_rows).-1)%N]].
Proof.
split.
- exact: well_formed_three_rows.
- exact: returns_three_rows.
- apply: returns_from_prices_shape.
  + exact: well_formed_three_rows.
  + exact: returns_three_rows.
Defined.

Lemma rows_three_rows : (0 < n_rows three_rows)%N.
Proof. by []. Qed.

Lemma prices_from_returns_pct_change_witness :
  [/\ price_table three_rows, (0 < n_rows three_rows)%N
    & obind (pct_change three_rows) (@prices_from_returns rat nat nat)
      = Value (map_columns (@growth_of rat) three_rows)].
Proof.
split.
- exact: price_table_three_rows.
- exact: rows_three_rows.
- apply: prices_from_returns_pct_change.
  + exact: price_table_three_rows.
  + exact: rows_three_rows.
Defined.

(** The whole growth of the example: 1, 11/10, 33/25 and 1, 1/2, 5/8. *)
Lemma growth_three_rows :
  obind (pct_change three_rows) (@prices_from_returns rat nat nat)
  = Value (mkFrame [:: 0; 1; 2]%N
             [:: (0%N, [:: Some 1; Some (11%:Q / 10%:Q);
                           Some (33%:Q / 25%:Q)]);
                 (1%N, [:: Some 1; Some (2%:Q^-1); Some (5%:Q / 8%:Q)])]).
Proof. by apply: frame_value; vm_compute. Qed.

Lemma some_returns_well_formed : well_formed some_returns.
Proof. by []. Qed.

Lemma some_returns_growth :
  all (fun c => all (fun r : rat => 0 < 1 + r) (behead c.2))
      (columns some_returns).
Proof. by vm_compute. Qed.

Lemma returns_from_pseudo_prices_witness :
  [/\ well_formed some_returns, (0 < n_rows some_returns)%N,
      (0 < size (columns some_returns))%N,
      all (fun c => all (fun r : rat => 0 < 1 + r) (behead c.2))
          (columns some_returns)
    & exists pseudo : DataFrame nat nat rat,
        [/\ prices_from_returns (numbers some_returns)
            = Value (numbers pseudo),
            price_table pseudo
          & returns_from_prices pseudo
            = Value (numbers (drop_first_row some_returns))]].
Proof.
split.
- exact: some_returns_well_formed.
- by [].
- by [].
- exact: some_returns_growth.
- apply: returns_from_pseudo_prices.
  + exact: some_returns_well_formed.
  + by [].
  + by [].
  + exact: some_returns_growth.
Defined.

Lemma flat_rows_price_table : price_table flat_rows.
Proof. by vm_compute. Qed.

Lemma flat_rows_constant :
  all (fun c => all (fun y : rat => y == head 0 (changes c.2)) (changes c.2))
      (columns flat_rows).
Proof. by vm_compute. Qed.

Lemma span_three : (1 <= 3 :> int)%R.
Proof. by []. Qed.

Lemma constant_return_estimates_witness :
  [/\ price_table flat_rows,
      (1 < n_rows flat_rows)%N /\ (0 < size (columns flat_rows))%N,
      (1 <= 3 :> int)%R,
      all (fun c => all (fun y : rat => y == head 0 (changes c.2))
                        (changes c.2)) (columns flat_rows)
    & mean_historical_return flat_rows 252
      = Value [seq (c.1, Some (head 0 (changes c.2) * 252%:~R))
              | c <- columns flat_rows]
      /\ ema_historical_return flat_rows 252 3
         = mean_historical_return flat_rows 252].
Proof.
split.
- exact: flat_rows_price_table.
- by [].
- exact: span_three.
- exact: flat_rows_constant.
- apply: constant_return_estimates.
  + exact: flat_rows_price_table.
  + by [].
  + by [].
  + exact: span_three.
  + exact: flat_rows_constant.
Defined.

Lemma two_rows_count : n_rows two_rows = 2.
Proof. by []. Qed.

Lemma ema_two_rows_is_mean_witness :
  [/\ price_table two_rows, n_rows two_rows = 2,
      (0 < size (columns two_rows))%N, (1 <= 3 :> int)%R
    & ema_historical_return two_rows 252 3
      = mean_historical_return two_rows 252].
Proof.
split.
- exact: price_table_two_rows.
- exact: two_rows_count.
- by [].
- exact: span_three.
- apply: ema_two_rows_is_mean.
  + exact: price_table_two_rows.
  + exact: two_rows_count.
  + by [].
  + exact: span_three.
Defined.

Lemma three_rows_within :
  all (fun c => all (fun y : rat => - 2%:Q^-1 <= y <= 4%:Q^-1) (changes c.2))
      (columns three_rows).
Proof. by vm_compute. Qed.

Lemma frequency_ge0 : (0 <= 252 :> int)%R.
Proof. by []. Qed.

Lemma estimates_within_bounds_witness :
  [/\ price_table three_rows,
      (1 < n_rows three_rows)%N /\ (0 < size (columns three_rows))%N,
      (1 <= 3 :> int)%R /\ (0 <= 252 :> int)%R,
      all (fun c => all (fun y : rat => - 2%:Q^-1 <= y <= 4%:Q^-1)
                        (changes c.2)) (columns three_rows)
    & exists m e : Series rat nat,
        [/\ mean_historical_return three_rows 252 = Value m,
            ema_historical_return three_rows 252 3 = Value e,
            all (fun c => cell_within (- 2%:Q^-1 * 252%:~R)
                            (4%:Q^-1 * 252%:~R) c.2) m
          & all (fun c => cell_within (- 2%:Q^-1 * 252%:~R)
                            (4%:Q^-1 * 252%:~R) c.2) e]].
Proof.
split.
- exact: price_table_three_rows.
- by [].
- by split; [exact: span_three | exact: frequency_ge0].
- exact: three_rows_within.
- apply: estimates_within_bounds.
  + exact: price_table_three_rows.
  + by [].
  + by [].
  + exact: span_three.
  + exact: frequency_ge0.
  + exact: three_rows_within.
Defined.

Lemma returns_above_minus_one_witness :
  price_table three_rows /\
  exists2 returns,
    returns_from_prices three_rows = Value returns
    & all (fun c => all (cell_above (-1)) c.2) (columns returns).
Proof.
split; first exact: price_table_three_rows.
apply: returns_above_minus_one; exact: price_table_three_rows.
Defined.

Lemma ema_span_one_witness :
  [/\ price_table three_rows, (1 < n_rows three_rows)%N,
      (0 < size (columns three_rows))%N
    & ema_historical_return three_rows 252 1
      = Value [seq (c.1, Some (last 0 (changes c.2) * 252%:~R))
              | c <- columns three_rows]].
Proof.
split.
- exact: price_table_three_rows.
- by [].
- by [].
- apply: ema_span_one.
  + exact: price_table_three_rows.
  + by [].
  + by [].
Defined.

Lemma ema_historical_return_cases_witness :
  price_table three_rows /\
  ema_historical_return three_rows 252 3
  = if (3 < 1 :> int)%R then Raise ValueError
    else if (n_rows three_rows <= 1)%N || (size (columns three_rows) == 0)%N
         then Raise IndexError
    else Value [seq (c.1, Some (ewma_weighted (1 - alpha_of_span rat 3)
                                  (changes c.2) * 252%:~R))
               | c <- columns three_rows].
Proof.
split; first exact: price_table_three_rows.
apply: ema_historical_return_cases; exact: price_table_three_rows.
Defined.

Lemma one_row_well_formed : well_formed one_row.
Proof. by []. Qed.

Lemma short_table_is_nan_witness :
  [/\ well_formed one_row, (n_rows one_row <= 1)%N
    & returns_from_prices one_row
      = Value (mkFrame [::] [seq (c.1, [::]) | c <- columns one_row])
      /\ mean_historical_return one_row 252
         = Value [seq (c.1, None) | c <- columns one_row]].
Proof.
split.
- exact: one_row_well_formed.
- by [].
- apply: short_table_is_nan.
  + exact: one_row_well_formed.
  + by [].
Defined.

End TableAlgebraExamples.
Section RoundedExamples.

Import Binary64.


Lemma Sigma_singular_entries :
  [/\ PosteriorExample.Sigma_singular 0 0 = 1,
      PosteriorExample.Sigma_singular 0 1 = 3%:R,
      PosteriorExample.Sigma_singular 1 0 = 3%:R
    & PosteriorExample.Sigma_singular 1 1 = 9%:R].
Proof. by split; rewrite mxE. Qed.





End RoundedExamples.
